(** * Club fee ledger of the Buddy System: a shallow embedding of package [fee]

    The Go package keeps two MongoDB collections, [fees] (one document per
    (year, semester) term) and [logs] (one document per payment event), and
    reads a third one, [members].  Every exported function opens a client,
    issues a short sequence of driver calls and disconnects.  The embedding
    below keeps that shape: a store of three document lists, a state and
    error monad whose primitive actions are the driver calls, and one
    definition per exported function. *)

From Stdlib Require Import ZArith.
From stdpp Require Import base list sorting strings gmap.

Local Open Scope Z_scope.

(** ** Go's [int] *)

(** [int] is 64 bits wide on the platforms the server is built for; [+=]
    wraps around in two's complement. *)
Definition int_wrap (z : Z) : Z := (z + 2 ^ 63) `mod` 2 ^ 64 - 2 ^ 63.
Definition int_add (x y : Z) : Z := int_wrap (x + y).
Definition int_range (z : Z) : Prop := - 2 ^ 63 ≤ z < 2 ^ 63.

(** The running total of a [sum += x] loop started at zero. *)
Definition int_sum (l : list Z) : Z := fold_left int_add l 0.

(** The same total in unbounded arithmetic. *)
Definition Z_sum (l : list Z) : Z := foldr Z.add 0 l.

(** ** Documents *)

(** [primitive.ObjectID] is twelve opaque bytes compared for equality only. *)
Definition ObjectID := N.

Module Fee.
(** [type Fee struct]. *)
Record t := mk {
  Year : Z;
  Semester : Z;
  Amount : Z;
  Logs : list ObjectID
}.
End Fee.

Module Log.
(** Modelled from the spec: [type Log struct] lives in a file of package
    [fee] that is not part of the sources at hand.  Fields follow the
    persisted schema of section 6 and the filters the queries use
    ([_id], [member_id], [type], [updated_at]). *)
Record t := mk {
  ID : ObjectID;
  MemberID : string;
  Type_ : string;
  Amount : Z;
  UpdatedAt : Z
}.
End Log.

Module Member.
(** Modelled from the spec: [member.Member] belongs to package [member];
    the fee package only filters on its [id] field and hands the whole
    record back. *)
Record t := mk {
  ID : string;
  Name : string
}.
End Member.

#[global] Instance Fee_eq_dec : EqDecision Fee.t.
Proof. solve_decision. Defined.
#[global] Instance Log_eq_dec : EqDecision Log.t.
Proof. solve_decision. Defined.
#[global] Instance Member_eq_dec : EqDecision Member.t.
Proof. solve_decision. Defined.

(** [New] returns a new club fee. *)
Definition New (year semester amount : Z) : Fee.t :=
  Fee.mk year semester amount [].

(** ** The ledger store and the world an operation runs in *)

Record Store := mkStore {
  fees : list Fee.t;
  logs : list Log.t;
  members : list Member.t
}.

#[global] Instance Store_eq_dec : EqDecision Store.
Proof. solve_decision. Defined.

Inductive error :=
  | ErrDuplicatedFee
  | ErrNoDocuments
  | ErrDriver (code : N).

#[global] Instance error_eq_dec : EqDecision error.
Proof. solve_decision. Defined.

(** The code the server answers with when an insert repeats an [_id]. *)
Definition DuplicateKey : N := 11000%N.

Inductive result (A : Type) :=
  | Ok (a : A)
  | Err (e : error).
Arguments Ok {A} a.
Arguments Err {A} e.

(** [faults] is the fate of the driver calls still to come, in issue order:
    [Some c] makes the next call fail with [ErrDriver c] and without effect,
    [None] (or an exhausted list) lets it through.  [clock] is what
    [time.Now().Unix()] reads and [fresh] what [primitive.NewObjectID]
    hands out during the operation.  [hist] collects the store after every
    write that went through, oldest first. *)
Record World := mkWorld {
  store : Store;
  faults : list (option N);
  clock : Z;
  fresh : ObjectID;
  hist : list Store
}.

Definition M (A : Type) : Type := World → result A * World.

Definition ret {A} (a : A) : M A := λ w, (Ok a, w).
Definition throw {A} (e : error) : M A := λ w, (Err e, w).
Definition bind {A B} (m : M A) (k : A → M B) : M B :=
  λ w, match m w with
       | (Ok a, w') => k a w'
       | (Err e, w') => (Err e, w')
       end.

(** [err = f(); if err != ... ] : the outcome of [m] as a value. *)
Definition attempt {A} (m : M A) : M (result A) :=
  λ w, let '(r, w') := m w in (Ok r, w').

(** A call whose returned error is dropped on the floor. *)
Definition discard {A} (m : M A) : M unit :=
  λ w, let '(_, w') := m w in (Ok tt, w').

Declare Scope ledger_scope.
Delimit Scope ledger_scope with ledger.
Notation "x <- m ;; k" := (bind m (λ x, k))
  (at level 100, m at next level, right associativity) : ledger_scope.
Notation "m ;;; k" := (bind m (λ _, k))
  (at level 100, right associativity) : ledger_scope.
Local Open Scope ledger_scope.

(** One round trip to the server. *)
Definition driver_call : M unit :=
  λ w, match faults w with
       | Some c :: fs =>
           (Err (ErrDriver c), mkWorld (store w) fs (clock w) (fresh w) (hist w))
       | None :: fs =>
           (Ok tt, mkWorld (store w) fs (clock w) (fresh w) (hist w))
       | [] => (Ok tt, w)
       end.

Definition get_store : M Store := λ w, (Ok (store w), w).

Definition put_store (s : Store) : M unit :=
  λ w, (Ok tt, mkWorld s (faults w) (clock w) (fresh w) (hist w ++ [s])).

Definition Now : M Z := λ w, (Ok (clock w), w).
Definition NewObjectID : M ObjectID := λ w, (Ok (fresh w), w).

(** Modelled from the spec: [NewLog] sits next to [type Log]; sections 3
    and 4.2 have it assign a generated identifier and stamp the creation
    time. *)
Definition NewLog (memberID typ : string) (amount : Z) : M Log.t :=
  id <- NewObjectID ;;
  now <- Now ;;
  ret (Log.mk id memberID typ amount now).

(** ** Driver calls *)

Definition Connect : M unit := driver_call.
Definition Disconnect : M unit := driver_call.
Definition Close : M unit := driver_call.

Definition fee_key (year semester : Z) (f : Fee.t) : Prop :=
  Fee.Year f = year ∧ Fee.Semester f = semester.

#[global] Instance fee_key_dec year semester f : Decision (fee_key year semester f).
Proof. unfold fee_key. apply _. Defined.

(** First document of [l] satisfying [P]. *)
Definition find_first {A} (P : A → Prop) `{∀ x, Decision (P x)} (l : list A) : option A :=
  head (filter P l).

(** Apply [f] to the first document satisfying [P]; no match, no change. *)
Fixpoint update_first {A} (P : A → Prop) `{∀ x, Decision (P x)} (f : A → A) (l : list A) : list A :=
  match l with
  | [] => []
  | x :: l' => if decide (P x) then f x :: l' else x :: update_first P f l'
  end.

(** Drop the first document satisfying [P]. *)
Fixpoint delete_first {A} (P : A → Prop) `{∀ x, Decision (P x)} (l : list A) : list A :=
  match l with
  | [] => []
  | x :: l' => if decide (P x) then l' else x :: delete_first P l'
  end.

Definition with_fees (s : Store) (fs : list Fee.t) : Store :=
  mkStore fs (logs s) (members s).
Definition with_logs (s : Store) (ls : list Log.t) : Store :=
  mkStore (fees s) ls (members s).

(** [fees.FindOne({year, semester}).Decode(fee)]. *)
Definition fees_FindOne (year semester : Z) : M Fee.t :=
  driver_call ;;;
  s <- get_store ;;
  match find_first (fee_key year semester) (fees s) with
  | Some f => ret f
  | None => throw ErrNoDocuments
  end.

(** [fees.InsertOne(fee)]: the driver generates the document's [_id]. *)
Definition fees_InsertOne (f : Fee.t) : M unit :=
  driver_call ;;;
  s <- get_store ;;
  put_store (with_fees s (fees s ++ [f])).

Definition push_log (id : ObjectID) (f : Fee.t) : Fee.t :=
  Fee.mk (Fee.Year f) (Fee.Semester f) (Fee.Amount f) (Fee.Logs f ++ [id]).

Definition pull_log (id : ObjectID) (f : Fee.t) : Fee.t :=
  Fee.mk (Fee.Year f) (Fee.Semester f) (Fee.Amount f)
         (filter (λ x, x ≠ id) (Fee.Logs f)).

(** [fees.UpdateOne({year, semester}, {$push: {logs: id}})]. *)
Definition fees_UpdateOne_push (year semester : Z) (id : ObjectID) : M unit :=
  driver_call ;;;
  s <- get_store ;;
  put_store (with_fees s (update_first (fee_key year semester) (push_log id) (fees s))).

(** [fees.UpdateOne({year, semester}, {$pull: {logs: id}})]. *)
Definition fees_UpdateOne_pull (year semester : Z) (id : ObjectID) : M unit :=
  driver_call ;;;
  s <- get_store ;;
  put_store (with_fees s (update_first (fee_key year semester) (pull_log id) (fees s))).

Definition has_id (id : ObjectID) (l : Log.t) : Prop := Log.ID l = id.

#[global] Instance has_id_dec id l : Decision (has_id id l).
Proof. unfold has_id. apply _. Defined.

(** [logs.InsertOne(log)]: [_id] carries a unique index. *)
Definition logs_InsertOne (l : Log.t) : M unit :=
  driver_call ;;;
  s <- get_store ;;
  if decide (Log.ID l ∈ Log.ID <$> logs s)
  then throw (ErrDriver DuplicateKey)
  else put_store (with_logs s (logs s ++ [l])).

(** [logs.DeleteOne({_id: id})]. *)
Definition logs_DeleteOne (id : ObjectID) : M unit :=
  driver_call ;;;
  s <- get_store ;;
  put_store (with_logs s (delete_first (has_id id) (logs s))).

Definition approve (now : Z) (l : Log.t) : Log.t :=
  Log.mk (Log.ID l) (Log.MemberID l) "approved" (Log.Amount l) now.

(** [logs.UpdateMany({_id: {$in: ids}}, {$set: {type: "approved", updated_at: now}})]. *)
Definition logs_UpdateMany_approve (ids : list ObjectID) (now : Z) : M unit :=
  driver_call ;;;
  s <- get_store ;;
  put_store (with_logs s
    ((λ l, if decide (Log.ID l ∈ ids) then approve now l else l) <$> logs s)).

(** [logs.Find(filter)]: the matching documents in collection order. *)
Definition logs_Find (P : Log.t → Prop) `{∀ l, Decision (P l)} : M (list Log.t) :=
  driver_call ;;;
  s <- get_store ;;
  ret (filter P (logs s)).

(** [members.Find({id: {$in: arr}})]. *)
Definition members_Find (arr : list string) : M (list Member.t) :=
  driver_call ;;;
  s <- get_store ;;
  ret (filter (λ m, Member.ID m ∈ arr) (members s)).

(** ** The exported operations *)

(** [Create] creates a new fees history. *)
Definition Create (year semester amount : Z) : M unit :=
  Connect ;;;
  r <- attempt (fees_FindOne year semester) ;;
  match r with
  | Err ErrNoDocuments =>
      fees_InsertOne (New year semester amount) ;;;
      Disconnect
  | _ =>
      Disconnect ;;;
      throw ErrDuplicatedFee
  end.

(** [Submit] creates a fees payment application log. *)
Definition Submit (memberID : string) (year semester amount : Z) : M unit :=
  Connect ;;;
  log <- NewLog memberID "unapproved" amount ;;
  logs_InsertOne log ;;;
  fees_UpdateOne_push year semester (Log.ID log) ;;;
  Disconnect.

(** [Amount] sums the approved logs of a member. *)
Definition Amount (year semester : Z) (memberID : string) : M Z :=
  Connect ;;;
  _ <- fees_FindOne year semester ;;
  cur <- logs_Find (λ l, Log.MemberID l = memberID ∧ Log.Type_ l = "approved") ;;
  let sum := fold_left (λ sum log, int_add sum (Log.Amount log)) cur 0 in
  Close ;;;
  Disconnect ;;;
  ret sum.

(** The [amounts[log.MemberID] += log.Amount] loop over a cursor. *)
Definition tally (cur : list Log.t) : gmap string Z :=
  fold_left
    (λ (amounts : gmap string Z) log,
       <[Log.MemberID log := int_add (default 0 (amounts !! Log.MemberID log)) (Log.Amount log)]> amounts)
    cur ∅.

(** The filter both reports share: approved logs on the term's roster. *)
Definition on_roster (f : Fee.t) (l : Log.t) : Prop :=
  Log.ID l ∈ Fee.Logs f ∧ Log.Type_ l = "approved".

#[global] Instance on_roster_dec f l : Decision (on_roster f l).
Proof. unfold on_roster. apply _. Defined.

(** Keys of [amounts] whose value passes [keep], as the [$in] array. *)
Definition select (keep : Z → Prop) `{∀ z, Decision (keep z)} (amounts : gmap string Z) : list string :=
  (map_to_list (filter (λ kv, keep kv.2) amounts)).*1.

(** [Dones] returns the members who paid the fee of the term. *)
Definition Dones (year semester : Z) : M (list Member.t) :=
  Connect ;;;
  fee <- fees_FindOne year semester ;;
  cur <- logs_Find (on_roster fee) ;;
  let amounts := tally cur in
  Close ;;;
  cur <- members_Find (select (λ amount, Fee.Amount fee ≤ amount) amounts) ;;
  Close ;;;
  Disconnect ;;;
  ret cur.

(** [Yets] returns the members who have not yet paid the fee of the term. *)
Definition Yets (year semester : Z) : M (list Member.t) :=
  Connect ;;;
  fee <- fees_FindOne year semester ;;
  cur <- logs_Find (on_roster fee) ;;
  let amounts := tally cur in
  Close ;;;
  cur <- members_Find (select (λ amount, amount < Fee.Amount fee) amounts) ;;
  Close ;;;
  Disconnect ;;;
  ret cur.

(** [sort.Slice] belongs to Go's standard library and is not stable; the
    embedding takes it as given. *)
Section WithSort.
Variable sort_Slice : (Log.t → Log.t → bool) → list Log.t → list Log.t.

(** [All] returns all the club fee logs of the term. *)
Definition All (year semester : Z) : M (list Log.t) :=
  Connect ;;;
  fee <- fees_FindOne year semester ;;
  cur <- logs_Find (λ l, Log.ID l ∈ Fee.Logs fee ∧
                         (Log.Type_ l = "approved" ∨ Log.Type_ l = "direct")) ;;
  Close ;;;
  let logs := sort_Slice (λ a b, Log.UpdatedAt a <? Log.UpdatedAt b) cur in
  Disconnect ;;;
  ret logs.
End WithSort.

(** [Approve] approves the submission requests of [ids]. *)
Definition Approve (ids : list ObjectID) : M unit :=
  Connect ;;;
  now <- Now ;;
  logs_UpdateMany_approve ids now ;;;
  Disconnect.

(** [Reject] rejects the submission requests of [ids]. *)
Fixpoint Reject_range (year semester : Z) (ids : list ObjectID) : M unit :=
  match ids with
  | [] => ret tt
  | id :: ids' =>
      fees_UpdateOne_pull year semester id ;;;
      logs_DeleteOne id ;;;
      Reject_range year semester ids'
  end.

Definition Reject (year semester : Z) (ids : list ObjectID) : M unit :=
  Connect ;;;
  Reject_range year semester ids ;;;
  Disconnect.

(** [Deposit] records a direct deposit against a term. *)
Definition Deposit (year semester amount : Z) : M unit :=
  Connect ;;;
  deposit <- NewLog "" "direct" amount ;;
  fees_UpdateOne_push year semester (Log.ID deposit) ;;;
  discard (logs_InsertOne deposit) ;;;
  Disconnect.

(** ** Running an operation *)

(** An operation starts on a store with a fault plan, a clock reading and
    the next identifier, and with an empty history. *)
Definition run {A} (m : M A) (s : Store) (fs : list (option N)) (now : Z) (oid : ObjectID)
  : result A * World :=
  m (mkWorld s fs now oid []).

Definition outcome {A} (r : result A * World) : result A := r.1.
Definition final {A} (r : result A * World) : Store := store r.2.
Definition seen {A} (r : result A * World) : list Store := hist r.2.

(** A term with the given key is on file. *)
Definition term_exists (year semester : Z) (s : Store) : Prop :=
  Exists (fee_key year semester) (fees s).

#[global] Instance term_exists_dec year semester s : Decision (term_exists year semester s).
Proof. unfold term_exists. apply _. Defined.

(** The term a lookup by key answers with. *)
Definition the_term (year semester : Z) (s : Store) : option Fee.t :=
  find_first (fee_key year semester) (fees s).

(** * Vocabulary of the statements *)

(** ** Per operation *)

(** The approved logs of a member, wherever they are referenced from. *)
Definition approved_of (memberID : string) (s : Store) : list Log.t :=
  filter (λ l, Log.MemberID l = memberID ∧ Log.Type_ l = "approved") (logs s).

(** What the batched update of [Approve] makes of one log. *)
Definition approved_at (ids : list ObjectID) (now : Z) (l : Log.t) : Log.t :=
  if decide (Log.ID l ∈ ids) then approve now l else l.

(** One turn of the loop in [tally]. *)
Definition tally_step (amounts : gmap string Z) (log : Log.t) : gmap string Z :=
  <[Log.MemberID log := int_add (default 0 (amounts !! Log.MemberID log)) (Log.Amount log)]> amounts.

(** Approved logs on the roster of [f] that name member [m]. *)
Definition roster_logs (f : Fee.t) (s : Store) (m : string) : list Log.t :=
  filter (λ l, Log.MemberID l = m) (filter (on_roster f) (logs s)).

(** What those logs add up to in the [amounts] map. *)
Definition credit (f : Fee.t) (s : Store) (m : string) : Z :=
  int_sum (Log.Amount <$> roster_logs f s m).

(** The member has an entry in [amounts] and it covers the fee. *)
Definition paid (f : Fee.t) (s : Store) (mb : Member.t) : Prop :=
  roster_logs f s (Member.ID mb) ≠ [] ∧ Fee.Amount f ≤ credit f s (Member.ID mb).

(** The member has an entry in [amounts] and it falls short of the fee. *)
Definition unpaid (f : Fee.t) (s : Store) (mb : Member.t) : Prop :=
  roster_logs f s (Member.ID mb) ≠ [] ∧ credit f s (Member.ID mb) < Fee.Amount f.

(** The selection as the specification words it for ComputePaid: every
    member whose approved roster logs add up to the fee or more. *)
Definition paid_by_sum (f : Fee.t) (s : Store) (mb : Member.t) : Prop :=
  Fee.Amount f ≤ credit f s (Member.ID mb).

#[global] Instance paid_dec f s mb : Decision (paid f s mb).
Proof. unfold paid. apply _. Defined.
#[global] Instance unpaid_dec f s mb : Decision (unpaid f s mb).
Proof. unfold unpaid. apply _. Defined.
#[global] Instance paid_by_sum_dec f s mb : Decision (paid_by_sum f s mb).
Proof. unfold paid_by_sum. apply _. Defined.

(** The logs [All] asks the collection for. *)
Definition shown (f : Fee.t) (l : Log.t) : Prop :=
  Log.ID l ∈ Fee.Logs f ∧ (Log.Type_ l = "approved" ∨ Log.Type_ l = "direct").

#[global] Instance shown_dec f l : Decision (shown f l).
Proof. unfold shown. apply _. Defined.

(** The [less] that [All] hands to [sort.Slice]. *)
Definition by_updated_at (a b : Log.t) : bool := Log.UpdatedAt a <? Log.UpdatedAt b.

(** What Go's documentation asks of the [less] handed to [sort.Slice]. *)
Definition strict_weak_order {A} (less : A → A → bool) : Prop :=
  (∀ a, less a a = false)
  ∧ (∀ a b c, less a b = true → less b c = true → less a c = true)
  ∧ (∀ a b c, less a b = false → less b c = false → less a c = false).

(** What [sort.Slice] promises in return: the same elements, and no
    element placed after one it is less than. *)
Definition sort_contract (srt : (Log.t → Log.t → bool) → list Log.t → list Log.t) : Prop :=
  ∀ less l,
    srt less l ≡ₚ l
    ∧ (strict_weak_order less → StronglySorted (λ a b, less b a = false) (srt less l)).

(** A sort that keeps the promise, to run [All] with. *)
Definition not_after (less : Log.t → Log.t → bool) (a b : Log.t) : Prop :=
  less b a = false.

#[global] Instance not_after_dec less a b : Decision (not_after less a b).
Proof. unfold not_after. apply _. Defined.

Definition merge_sort_Slice (less : Log.t → Log.t → bool) : list Log.t → list Log.t :=
  merge_sort (not_after less).

(** One round of the loop in [Reject]: pull, then delete. *)
Definition pulled (year semester : Z) (id : ObjectID) (s : Store) : Store :=
  with_fees s (update_first (fee_key year semester) (pull_log id) (fees s)).

Definition deleted (id : ObjectID) (s : Store) : Store :=
  with_logs s (delete_first (has_id id) (logs s)).

(** The store after the loop went through [ids] from left to right. *)
Fixpoint rejected (year semester : Z) (ids : list ObjectID) (s : Store) : Store :=
  match ids with
  | [] => s
  | id :: ids' => rejected year semester ids' (deleted id (pulled year semester id s))
  end.

(** The read-only part of the world. *)
Definition same_env (w w' : World) : Prop :=
  clock w' = clock w ∧ fresh w' = fresh w.

(** ** Invariants and reachable stores *)

(** No two stored logs share an [_id]: the unique index of the collection. *)
Definition unique_log_ids (s : Store) : Prop := NoDup (Log.ID <$> logs s).

#[global] Instance unique_log_ids_dec s : Decision (unique_log_ids s).
Proof. unfold unique_log_ids. apply _. Defined.

(** Every identifier on a roster names a stored log. *)
Definition no_dangling (s : Store) : Prop :=
  Forall (λ f, Forall (λ id, id ∈ Log.ID <$> logs s) (Fee.Logs f)) (fees s).

#[global] Instance no_dangling_dec s : Decision (no_dangling s).
Proof. unfold no_dangling. apply _. Defined.

Definition term_key (f : Fee.t) : Z * Z := (Fee.Year f, Fee.Semester f).

(** (year, semester) identifies at most one term. *)
Definition unique_term_keys (s : Store) : Prop := NoDup (term_key <$> fees s).

(** Every term that lists one of [ids] is a term with the given key. *)
Definition owned (year semester : Z) (ids : list ObjectID) (s : Store) : Prop :=
  Forall (λ f, Forall (λ id, id ∈ Fee.Logs f → fee_key year semester f) ids) (fees s).

#[global] Instance owned_dec year semester ids s : Decision (owned year semester ids s).
Proof. unfold owned. apply _. Defined.

(** What holds of every store the careful calls reach. *)
Definition ledger_inv (s : Store) : Prop :=
  unique_log_ids s ∧ unique_term_keys s ∧ no_dangling s.

(** The five writing operations as the request layer may issue them. *)
Inductive call :=
  | CCreate (year semester amount : Z)
  | CSubmit (memberID : string) (year semester amount : Z)
  | CDeposit (year semester amount : Z)
  | CApprove (ids : list ObjectID)
  | CReject (year semester : Z) (ids : list ObjectID).

Definition perform (c : call) : M unit :=
  match c with
  | CCreate year semester amount => Create year semester amount
  | CSubmit memberID year semester amount => Submit memberID year semester amount
  | CDeposit year semester amount => Deposit year semester amount
  | CApprove ids => Approve ids
  | CReject year semester ids => Reject year semester ids
  end.

Definition is_deposit (c : call) : Prop :=
  match c with CDeposit _ _ _ => True | _ => False end.

(** Stores reachable from an empty ledger by runs that return no error,
    the calls and fault plans being restricted by [allowed]. *)
Inductive reachable_by (allowed : Store → call → list (option N) → Prop) : Store → Prop :=
  | reachable_empty s :
      fees s = [] → logs s = [] → reachable_by allowed s
  | reachable_step s c fs now oid :
      reachable_by allowed s →
      allowed s c fs →
      outcome (run (perform c) s fs now oid) = Ok tt →
      reachable_by allowed (final (run (perform c) s fs now oid)).

(** Reachability as the specification words it: any call, any fault plan. *)
Definition any_call (s : Store) (c : call) (fs : list (option N)) : Prop := True.

(** The calls the invariant survives: [Reject] names the term that lists
    the identifiers, and the insertion inside [Deposit] (its third driver
    call) is not made to fail. *)
Definition careful_call (s : Store) (c : call) (fs : list (option N)) : Prop :=
  match c with
  | CReject year semester ids => owned year semester ids s
  | CDeposit _ _ _ => fs !! 2%nat = None ∨ fs !! 2%nat = Some None
  | _ => True
  end.

(** ** Fault plans, frames and traces *)

(** The world [w] with a driver that never fails. *)
Definition calm (w : World) : World :=
  mkWorld (store w) [] (clock w) (fresh w) (hist w).

(** Position and code of the first failure a fault plan holds. *)
Fixpoint first_failure (fs : list (option N)) : option (nat * N) :=
  match fs with
  | [] => None
  | Some c :: _ => Some (0%nat, c)
  | None :: fs' => prod_map S id <$> first_failure fs'
  end.

(** A computation that only reads: it leaves store, clock, identifier and
    history alone; and either some calls go through and it returns what it
    returns when the driver never fails, or it returns the first failure of
    the plan. *)
Definition reads_only {A} (m : M A) : Prop :=
  ∀ w, store (m w).2 = store w ∧ clock (m w).2 = clock w
       ∧ fresh (m w).2 = fresh w ∧ hist (m w).2 = hist w
       ∧ ((∃ n, faults w = replicate n None ++ faults (m w).2
                ∧ (m w).1 = (m (calm w)).1)
          ∨ (∃ i c, first_failure (faults w) = Some (i, c)
                    ∧ (m w).1 = Err (ErrDriver c))).

(** [m] keeps [I]: started on a store that satisfies [I], and whatever the
    driver does, every store it writes and the store it ends on satisfy [I]. *)
Definition keeps {A} (I : Store → Prop) (m : M A) : Prop :=
  ∀ w, I (store w) → Forall I (hist w) →
       I (store (m w).2) ∧ Forall I (hist (m w).2).

(** What [I] has to survive for every writing operation to keep it. *)
Definition survives_create (I : Store → Prop) : Prop :=
  ∀ year semester amount s,
    I s → the_term year semester s = None →
    I (with_fees s (fees s ++ [New year semester amount])).
Definition survives_insert (I : Store → Prop) : Prop :=
  ∀ l s,
    I s → Log.Type_ l = "unapproved" ∨ Log.Type_ l = "direct" →
    Log.ID l ∉ Log.ID <$> logs s →
    I (with_logs s (logs s ++ [l])).
Definition survives_push (I : Store → Prop) : Prop :=
  ∀ year semester id s,
    I s → I (with_fees s (update_first (fee_key year semester) (push_log id) (fees s))).
Definition survives_pull (I : Store → Prop) : Prop :=
  ∀ year semester id s, I s → I (pulled year semester id s).
Definition survives_delete (I : Store → Prop) : Prop :=
  ∀ id s, I s → I (deleted id s).
Definition survives_approve (I : Store → Prop) : Prop :=
  ∀ ids now s, I s → I (with_logs s (approved_at ids now <$> logs s)).

(** Key and price of the terms on file, in collection order. *)
Definition terms_on_file (s : Store) : list (Z * Z * Z) :=
  (λ f, (Fee.Year f, Fee.Semester f, Fee.Amount f)) <$> fees s.

(** The three values the [type] field of a log takes. *)
Definition known_type (l : Log.t) : Prop :=
  Log.Type_ l = "unapproved" ∨ Log.Type_ l = "direct" ∨ Log.Type_ l = "approved".

#[global] Instance known_type_dec l : Decision (known_type l).
Proof. unfold known_type. apply _. Defined.

(** Keys identify terms and logs, and every type is a known one. *)
Definition well_keyed (s : Store) : Prop :=
  unique_term_keys s ∧ unique_log_ids s ∧ Forall known_type (logs s).

(** Stores that ever exist: an empty ledger, and every store written by or
    left behind by a call on such a store, failed calls included. *)
Inductive ever_reached : Store → Prop :=
  | ever_empty s :
      fees s = [] → logs s = [] → ever_reached s
  | ever_written s c fs now oid s' :
      ever_reached s →
      s' = final (run (perform c) s fs now oid)
      ∨ s' ∈ seen (run (perform c) s fs now oid) →
      ever_reached s'.

(** The stores a fault-free [Reject] writes, oldest first. *)
Fixpoint reject_trace (year semester : Z) (ids : list ObjectID) (s : Store) : list Store :=
  match ids with
  | [] => []
  | id :: ids' =>
      pulled year semester id s
      :: deleted id (pulled year semester id s)
      :: reject_trace year semester ids' (deleted id (pulled year semester id s))
  end.

(** Outcome and final store of a run, side by side. *)
Definition verdict {A} (r : result A * World) : result A * Store := (outcome r, final r).

(** The stores [Submit] passes through. *)
Definition filed (memberID : string) (amount now : Z) (oid : ObjectID) (s : Store) : Store :=
  with_logs s (logs s ++ [Log.mk oid memberID "unapproved" amount now]).
Definition listed (year semester : Z) (oid : ObjectID) (s : Store) : Store :=
  with_fees s (update_first (fee_key year semester) (push_log oid) (fees s)).

(** The deposit log as [Deposit] inserts it. *)
Definition banked (amount now : Z) (oid : ObjectID) (s : Store) : Store :=
  with_logs s (logs s ++ [Log.mk oid "" "direct" amount now]).

(** The code the [i]-th driver call of a run fails with, if the plan
    makes it fail. *)
Definition fails_at (fs : list (option N)) (i : nat) : option N :=
  match fs !! i with
  | Some (Some c) => Some c
  | _ => None
  end.

(** The store after the batched update of [Approve]. *)
Definition approved_store (ids : list ObjectID) (now : Z) (s : Store) : Store :=
  with_logs s (approved_at ids now <$> logs s).

(** The member has an approved log on the roster of [f]. *)
Definition on_file (f : Fee.t) (s : Store) (mb : Member.t) : Prop :=
  roster_logs f s (Member.ID mb) ≠ [].

#[global] Instance on_file_dec f s mb : Decision (on_file f s mb).
Proof. unfold on_file. apply _. Defined.

(** ** Ledgers to run the operations on *)

(** One term, one claim waiting for approval. *)
Definition ledger_2024 : Store :=
  mkStore [Fee.mk 2024 1 50000 [7%N]]
          [Log.mk 7%N "M1" "unapproved" 30000 100]
          [Member.mk "M1" "Kim"; Member.mk "M2" "Lee"].

(** Two terms, one approved log of "M1" on each roster. *)
Definition ledger_two_terms : Store :=
  mkStore [Fee.mk 2024 1 50000 [7%N]; Fee.mk 2024 2 50000 [8%N]]
          [Log.mk 7%N "M1" "approved" 30000 100;
           Log.mk 8%N "M1" "approved" 20000 200;
           Log.mk 9%N "M2" "approved" 1 300]
          [Member.mk "M1" "Kim"; Member.mk "M2" "Lee"].

(** A term whose fee is zero, one member, no logs. *)
Definition ledger_free_term : Store :=
  mkStore [Fee.mk 2024 1 0 []] [] [Member.mk "M1" "Kim"].

(** The scenario of the specification: a fee of 50000, "M1" with two
    approved payments of 30000, "M2" with one of 10000, "M3" with none. *)
Definition term_2024_1 : Fee.t := Fee.mk 2024 1 50000 [1%N; 2%N; 3%N].

Definition ledger_paid : Store :=
  mkStore [term_2024_1]
          [Log.mk 1%N "M1" "approved" 30000 100;
           Log.mk 2%N "M1" "approved" 30000 110;
           Log.mk 3%N "M2" "approved" 10000 120]
          [Member.mk "M1" "Kim"; Member.mk "M2" "Lee"; Member.mk "M3" "Park"].

(** A roster of three: an approved claim, a direct deposit and a claim
    still waiting. *)
Definition ledger_mixed : Store :=
  mkStore [Fee.mk 2024 1 50000 [1%N; 2%N; 3%N]]
          [Log.mk 1%N "M1" "approved" 30000 300;
           Log.mk 2%N "" "direct" 50000 100;
           Log.mk 3%N "M2" "unapproved" 10000 50]
          [Member.mk "M1" "Kim"; Member.mk "M2" "Lee"].

(** Two terms created and a claim submitted against the first. *)
Definition ledger_step1 : Store :=
  final (run (perform (CCreate 2024 1 50000)) (mkStore [] [] []) [] 100 0%N).
Definition ledger_step2 : Store :=
  final (run (perform (CCreate 2024 2 50000)) ledger_step1 [] 110 0%N).
Definition ledger_step3 : Store :=
  final (run (perform (CSubmit "M1" 2024 1 30000)) ledger_step2 [] 120 7%N).

(** Then the claim rejected under the key of the second term. *)
Definition ledger_misrejected : Store :=
  final (run (perform (CReject 2024 2 [7%N])) ledger_step3 [] 130 0%N).

(** Or else a direct deposit against the second term, and the claim
    rejected under the term that lists it. *)
Definition ledger_deposited : Store :=
  final (run (perform (CDeposit 2024 2 50000)) ledger_step3 [] 125 8%N).
Definition ledger_rejected : Store :=
  final (run (perform (CReject 2024 1 [7%N])) ledger_deposited [] 130 0%N).

(** A claim whose log was stored while the push to the roster failed. *)
Definition ledger_orphaned : Store :=
  final (run (perform (CSubmit "M1" 2024 1 30000)) ledger_step2
             [None; None; Some 5%N] 120 7%N).

(** [ledger_paid] with its logs in another order. *)
Definition ledger_paid_shuffled : Store :=
  mkStore [term_2024_1]
          [Log.mk 3%N "M2" "approved" 10000 120;
           Log.mk 1%N "M1" "approved" 30000 100;
           Log.mk 2%N "M1" "approved" 30000 110]
          [Member.mk "M1" "Kim"; Member.mk "M2" "Lee"; Member.mk "M3" "Park"].

(** ** Tactics *)

(** Unfold an operation down to the world it is applied to. *)
Ltac exec_unfold :=
  unfold run, outcome, final, seen,
    Create, Submit, Amount, Dones, Yets, All, Approve, Reject, Deposit,
    Connect, Disconnect, Close, NewLog, NewObjectID, Now,
    fees_FindOne, fees_InsertOne, fees_UpdateOne_push, fees_UpdateOne_pull,
    logs_InsertOne, logs_DeleteOne, logs_UpdateMany_approve, logs_Find,
    members_Find, attempt, discard, bind, driver_call, get_store, put_store,
    ret, throw.

Ltac exec := repeat progress (exec_unfold; cbn).

(** Settle a closed decidable proposition by evaluating its decision. *)
Ltac by_decide :=
  match goal with
  | |- ?P => apply (bool_decide_eq_true_1 P); vm_compute; reflexivity
  end.

(** The fate of the first four driver calls, case by case. *)
Ltac faults_cases fs :=
  destruct fs as [|[?|] [|[?|] [|[?|] [|[?|] ?]]]].

(** The first failure of the plan lies beyond the calls of the run. *)
Ltac late_fault :=
  match goal with
  | |- context [first_failure ?fs] => destruct (first_failure fs) as [[? ?]|]
  end; reflexivity.

(** * Properties *)

(** ** Arithmetic of [int] *)

Lemma int_wrap_range z : int_range z → int_wrap z = z.
Proof.
  unfold int_range, int_wrap. intros Hz.
  rewrite Z.mod_small by lia. lia.
Qed.

Lemma int_wrap_in_range z : int_range (int_wrap z).
Proof.
  unfold int_range, int_wrap.
  pose proof (Z.mod_pos_bound (z + 2 ^ 63) (2 ^ 64)) as Hb. lia.
Qed.

Lemma int_wrap_add_l x y : int_wrap (int_wrap x + y) = int_wrap (x + y).
Proof.
  unfold int_wrap.
  replace ((x + 2 ^ 63) `mod` 2 ^ 64 - 2 ^ 63 + y + 2 ^ 63)
    with ((x + 2 ^ 63) `mod` 2 ^ 64 + y) by lia.
  rewrite Zplus_mod_idemp_l. do 2 f_equal. lia.
Qed.

Lemma fold_int_add l a :
  fold_left int_add l (int_wrap a) = int_wrap (a + Z_sum l).
Proof.
  revert a. induction l as [|x l IH]; intros a; simpl.
  - f_equal. lia.
  - unfold int_add at 2. rewrite int_wrap_add_l, IH. f_equal. lia.
Qed.

(** The loop total is the exact total reduced to 64 bits. *)
Lemma int_sum_wrap l : int_sum l = int_wrap (Z_sum l).
Proof.
  unfold int_sum. change 0 with (int_wrap 0) at 1.
  rewrite fold_int_add. reflexivity.
Qed.

Lemma int_sum_exact l : int_range (Z_sum l) → int_sum l = Z_sum l.
Proof. intros H. rewrite int_sum_wrap. by apply int_wrap_range. Qed.

Lemma fold_left_amounts (cur : list Log.t) a :
  fold_left (λ sum log, int_add sum (Log.Amount log)) cur a
  = fold_left int_add (Log.Amount <$> cur) a.
Proof. revert a. induction cur as [|l cur IH]; intros a; simpl; [done|apply IH]. Qed.

(** ** Lookup, update and deletion of the first match *)

Section FirstMatch.
Context {A : Type} (P : A → Prop) `{!∀ x, Decision (P x)}.

Lemma find_first_cons x l :
  find_first P (x :: l) = if decide (P x) then Some x else find_first P l.
Proof. unfold find_first. rewrite filter_cons. by destruct (decide (P x)). Qed.

Lemma find_first_Some l x : find_first P l = Some x → x ∈ l ∧ P x.
Proof.
  induction l as [|y l IH]; [done|]. rewrite find_first_cons.
  destruct (decide (P y)).
  - intros [= ->]. split; [left|done].
  - intros Hf. destruct (IH Hf). split; [by right|done].
Qed.

Lemma find_first_None l : find_first P l = None ↔ Forall (λ x, ¬ P x) l.
Proof.
  induction l as [|y l IH]; [by split; [constructor|]|].
  rewrite find_first_cons, Forall_cons. destruct (decide (P y)).
  - split; [done|]. by intros [? _].
  - rewrite IH. tauto.
Qed.

Lemma find_first_is_Some l : Exists P l ↔ is_Some (find_first P l).
Proof.
  induction l as [|y l IH]; simpl.
  - split; [intros Hx; inversion Hx | intros [x Hx]; discriminate].
  - rewrite find_first_cons, Exists_cons. destruct (decide (P y)).
    + split; eauto.
    + rewrite <- IH. tauto.
Qed.

Lemma update_first_none f l : Forall (λ x, ¬ P x) l → update_first P f l = l.
Proof.
  induction 1 as [|x l Hx _ IH]; simpl; [done|].
  rewrite decide_False by done. by rewrite IH.
Qed.

Lemma elem_of_update_first f l y :
  y ∈ update_first P f l → y ∈ l ∨ ∃ x, x ∈ l ∧ find_first P l = Some x ∧ y = f x.
Proof.
  induction l as [|x l IH]; simpl; [by left|].
  rewrite find_first_cons. destruct (decide (P x)).
  - rewrite elem_of_cons. intros [->|Hy].
    + right. exists x. split; [left|done].
    + left. by right.
  - rewrite elem_of_cons. intros [->|Hy]; [left; left|].
    destruct (IH Hy) as [?|(z & ? & ? & ?)]; [left; by right|].
    right. exists z. split; [by right|done].
Qed.

Lemma find_first_update_first f l x :
  (∀ z, P z → P (f z)) →
  find_first P l = Some x → find_first P (update_first P f l) = Some (f x).
Proof.
  intros Hf. induction l as [|y l IH]; simpl; [done|].
  rewrite find_first_cons. destruct (decide (P y)) as [Hy|Hy].
  - intros [= ->]. rewrite find_first_cons. by rewrite decide_True by auto.
  - intros Hx. rewrite find_first_cons. rewrite decide_False by done. auto.
Qed.

Lemma elem_of_delete_first l y : y ∈ delete_first P l → y ∈ l.
Proof.
  induction l as [|x l IH]; simpl; [done|].
  destruct (decide (P x)); rewrite !elem_of_cons; [by right|].
  intros [->|?]; [by left|right; auto].
Qed.

Lemma delete_first_none l : Forall (λ x, ¬ P x) l → delete_first P l = l.
Proof.
  induction 1 as [|x l Hx _ IH]; simpl; [done|].
  rewrite decide_False by done. by rewrite IH.
Qed.
End FirstMatch.

Lemma term_exists_the_term year semester s :
  term_exists year semester s ↔ is_Some (the_term year semester s).
Proof. apply find_first_is_Some. Qed.

Lemma no_term_the_term year semester s :
  ¬ term_exists year semester s ↔ the_term year semester s = None.
Proof. rewrite term_exists_the_term, eq_None_not_Some. tauto. Qed.

(** ** Create *)

Lemma Create_existing_any_faults st year semester amount fs now oid f :
  the_term year semester st = Some f →
  final (run (Create year semester amount) st fs now oid) = st
  ∧ outcome (run (Create year semester amount) st fs now oid) ≠ Ok tt.
Proof.
  unfold the_term. intros Hf.
  destruct fs as [|[c1|] [|[c2|] [|[c3|] fs]]]; exec; rewrite ?Hf; cbn; done.
Qed.

(** C1.  On a store in which a term with the key (year, semester) is on
    file, [Create] answers [ErrDuplicatedFee] and writes nothing, so the
    term on file stays as it was (and whatever the driver does, no run of
    [Create] on such a store succeeds or touches the store).  On a store
    without such a term, [Create] succeeds and appends the term
    (year, semester, amount) with an empty list of logs. *)
Theorem Create_duplicate_or_insert st year semester amount now oid :
  (term_exists year semester st →
     outcome (run (Create year semester amount) st [] now oid) = Err ErrDuplicatedFee
     ∧ final (run (Create year semester amount) st [] now oid) = st
     ∧ seen (run (Create year semester amount) st [] now oid) = []
     ∧ ∀ fs, final (run (Create year semester amount) st fs now oid) = st
             ∧ outcome (run (Create year semester amount) st fs now oid) ≠ Ok tt)
  ∧ (¬ term_exists year semester st →
     outcome (run (Create year semester amount) st [] now oid) = Ok tt
     ∧ final (run (Create year semester amount) st [] now oid)
       = mkStore (fees st ++ [Fee.mk year semester amount []]) (logs st) (members st)).
Proof.
  split.
  - intros [f Hf]%term_exists_the_term.
    split_and!; [| | |intros fs; by eapply Create_existing_any_faults].
    all: unfold the_term in Hf; exec; rewrite Hf; done.
  - intros Hno%no_term_the_term. unfold the_term in Hno.
    split; exec; rewrite Hno; done.
Qed.

Lemma Create_duplicate_or_insert_witness :
  (outcome (run (Create 2024 1 99) ledger_2024 [] 0 0%N) = Err ErrDuplicatedFee
   ∧ final (run (Create 2024 1 99) ledger_2024 [] 0 0%N) = ledger_2024)
  ∧ (outcome (run (Create 2024 2 99) ledger_2024 [] 0 0%N) = Ok tt
     ∧ final (run (Create 2024 2 99) ledger_2024 [] 0 0%N)
       = mkStore (fees ledger_2024 ++ [Fee.mk 2024 2 99 []])
                 (logs ledger_2024) (members ledger_2024)).
Proof.
  split.
  - pose proof (proj1 (Create_duplicate_or_insert ledger_2024 2024 1 99 0 0%N)) as H.
    destruct H as (H1 & H2 & _); [by_decide|]. by split.
  - apply (proj2 (Create_duplicate_or_insert ledger_2024 2024 2 99 0 0%N)).
    by_decide.
Defined.

(** ** Amount *)

(** C2.  [Amount] answers [ErrNoDocuments] when no term has the key
    (year, semester).  When one has, it returns the total of [amount] over
    every stored log of the member whose type is approved: the roster of
    the term plays no part in the selection, so approved logs of the member
    that belong to other terms are counted too.  The total is the one
    Go's [int] accumulates; it is the exact sum whenever that fits in
    64 bits.  The store is left as it was. *)
Theorem Amount_sums_every_approved_log st year semester memberID now oid :
  (¬ term_exists year semester st →
     outcome (run (Amount year semester memberID) st [] now oid) = Err ErrNoDocuments)
  ∧ (term_exists year semester st →
     outcome (run (Amount year semester memberID) st [] now oid)
       = Ok (int_sum (Log.Amount <$> approved_of memberID st))
     ∧ final (run (Amount year semester memberID) st [] now oid) = st
     ∧ (int_range (Z_sum (Log.Amount <$> approved_of memberID st)) →
        outcome (run (Amount year semester memberID) st [] now oid)
          = Ok (Z_sum (Log.Amount <$> approved_of memberID st)))).
Proof.
  split.
  - intros Hno%no_term_the_term. unfold the_term in Hno.
    exec. by rewrite Hno.
  - intros [f Hf]%term_exists_the_term. unfold the_term in Hf.
    assert (outcome (run (Amount year semester memberID) st [] now oid)
            = Ok (int_sum (Log.Amount <$> approved_of memberID st))) as Hsum.
    { exec. rewrite Hf. cbn. by rewrite fold_left_amounts. }
    split_and!; [done| |].
    + exec. by rewrite Hf.
    + intros Hr. rewrite Hsum. f_equal. by apply int_sum_exact.
Qed.

Lemma Amount_sums_every_approved_log_witness :
  outcome (run (Amount 2023 1 "M1") ledger_two_terms [] 0 0%N) = Err ErrNoDocuments
  ∧ outcome (run (Amount 2024 1 "M1") ledger_two_terms [] 0 0%N) = Ok 50000.
Proof.
  split.
  - apply (proj1 (Amount_sums_every_approved_log ledger_two_terms 2023 1 "M1" 0 0%N)).
    by_decide.
  - destruct (proj2 (Amount_sums_every_approved_log ledger_two_terms 2024 1 "M1" 0 0%N))
      as (_ & _ & Hexact); [by_decide|].
    apply Hexact. by_decide.
Defined.

(** ** Error propagation *)

(** C8.  Two places where a driver failure does not reach the caller as it
    was raised.  When the lookup inside [Create] fails with code [c], the
    result is [ErrDuplicatedFee], not [ErrDriver c], although no term was
    found.  When the insertion of the log inside [Deposit] fails with code
    [c], [Deposit] returns without error. *)
Theorem driver_failure_not_surfaced st year semester amount c now oid :
  outcome (run (Create year semester amount) st [None; Some c] now oid)
    = Err ErrDuplicatedFee
  ∧ outcome (run (Deposit year semester amount) st [None; None; Some c] now oid)
    = Ok tt
  ∧ logs (final (run (Deposit year semester amount) st [None; None; Some c] now oid))
    = logs st.
Proof. split_and!; exec; done. Qed.

(** The sibling [Submit] does report a failed insertion. *)
Lemma Submit_surfaces_insert_failure st memberID year semester amount c now oid :
  outcome (run (Submit memberID year semester amount) st [None; Some c] now oid)
    = Err (ErrDriver c)
  ∧ final (run (Submit memberID year semester amount) st [None; Some c] now oid) = st.
Proof. split; exec; done. Qed.

(** ** Approve *)

Lemma Approve_quiet st ids now oid :
  run (Approve ids) st [] now oid
  = (Ok tt, mkWorld (with_logs st (approved_at ids now <$> logs st)) [] now oid
                    [with_logs st (approved_at ids now <$> logs st)]).
Proof. reflexivity. Qed.

Lemma Approve_final st ids fs now oid :
  final (run (Approve ids) st fs now oid) = st
  ∨ final (run (Approve ids) st fs now oid)
    = with_logs st (approved_at ids now <$> logs st).
Proof.
  destruct fs as [|[c1|] [|[c2|] [|[c3|] fs]]]; exec;
    first [by left | by right].
Qed.

Lemma approved_at_nil now (ls : list Log.t) : approved_at [] now <$> ls = ls.
Proof.
  induction ls as [|l ls IH]; [done|]. rewrite fmap_cons, IH.
  unfold approved_at. rewrite decide_False; [done|]. apply not_elem_of_nil.
Qed.

Lemma approved_at_frame ids now l :
  Log.ID (approved_at ids now l) = Log.ID l
  ∧ Log.MemberID (approved_at ids now l) = Log.MemberID l
  ∧ Log.Amount (approved_at ids now l) = Log.Amount l
  ∧ (Log.ID l ∉ ids → approved_at ids now l = l).
Proof.
  unfold approved_at. destruct (decide (Log.ID l ∈ ids)); simpl; split_and!; done.
Qed.

(** C7, as the code has it.  Without driver failures [Approve] succeeds
    with a single write to the collection of logs.  Every log whose
    identifier is in [ids] ends with type approved and with [updated_at]
    equal to the Unix second read from the clock when [Approve] ran; a log
    that was approved already keeps its type and still gets the new stamp.
    The stamp is strictly later than the old one exactly when the clock
    reading is later than the old stamp. *)
Theorem Approve_sets_type_and_stamp st ids now oid :
  outcome (run (Approve ids) st [] now oid) = Ok tt
  ∧ seen (run (Approve ids) st [] now oid) = [final (run (Approve ids) st [] now oid)]
  ∧ ∀ i l, logs st !! i = Some l → Log.ID l ∈ ids →
      ∃ l', logs (final (run (Approve ids) st [] now oid)) !! i = Some l'
            ∧ Log.ID l' = Log.ID l
            ∧ Log.Type_ l' = "approved"
            ∧ Log.UpdatedAt l' = now
            ∧ (Log.Type_ l = "approved" → Log.Type_ l' = Log.Type_ l)
            ∧ (Log.UpdatedAt l < Log.UpdatedAt l' ↔ Log.UpdatedAt l < now).
Proof.
  rewrite Approve_quiet. unfold outcome, seen, final. simpl.
  split_and!; [done..|].
  intros i l Hi Hin. exists (approve now l). split.
  - rewrite list_lookup_fmap, Hi. simpl. unfold approved_at.
    by rewrite decide_True.
  - simpl. split_and!; done.
Qed.

Lemma Approve_sets_type_and_stamp_witness :
  ∃ l', logs (final (run (Approve [7%N]) ledger_2024 [] 160 0%N)) !! 0%nat = Some l'
        ∧ Log.Type_ l' = "approved" ∧ Log.UpdatedAt l' = 160.
Proof.
  destruct (Approve_sets_type_and_stamp ledger_2024 [7%N] 160 0%N) as (_ & _ & H).
  destruct (H 0%nat (Log.mk 7%N "M1" "unapproved" 30000 100)) as (l' & ? & ? & ? & ? & _);
    [reflexivity|by_decide|].
  exists l'. by split_and!.
Defined.

(** The claim of C7 that the stamp of a log approved for the first time
    always moves forward fails when submission and approval fall into the
    same second: the log below is unapproved with stamp 100, it is approved
    while the clock reads 100, and its stamp stays 100. *)
Lemma Approve_same_second_keeps_stamp :
  let before := Log.mk 7%N "M1" "unapproved" 30000 100 in
  logs ledger_2024 = [before]
  ∧ outcome (run (Approve [7%N]) ledger_2024 [] 100 0%N) = Ok tt
  ∧ ∃ after, logs (final (run (Approve [7%N]) ledger_2024 [] 100 0%N)) = [after]
             ∧ Log.ID after = Log.ID before
             ∧ Log.Type_ after = "approved"
             ∧ ¬ (Log.UpdatedAt before < Log.UpdatedAt after).
Proof.
  simpl. split_and!; [done..|].
  exists (Log.mk 7%N "M1" "approved" 30000 100). split_and!; [done..|]. simpl. lia.
Qed.

(** Such a log arises when a claim is submitted and approved while the
    clock shows the same second. *)
Example Submit_then_Approve_in_one_second :
  let submitted := final (run (Submit "M1" 2024 1 30000) ledger_step2 [] 120 7%N) in
  logs submitted = [Log.mk 7%N "M1" "unapproved" 30000 120]
  ∧ logs (final (run (Approve [7%N]) submitted [] 120 0%N))
    = [Log.mk 7%N "M1" "approved" 30000 120].
Proof. vm_compute. split; reflexivity. Qed.

(** C10.  Whatever the driver does, a run of [Approve] leaves the terms and
    the members as they were, keeps every log in its place with its
    identifier, member and amount, and leaves a log whose identifier is not
    in [ids] untouched.  With an empty [ids] and no driver failure it
    succeeds and the store is the one it started from. *)
Theorem Approve_frame st ids fs now oid :
  fees (final (run (Approve ids) st fs now oid)) = fees st
  ∧ members (final (run (Approve ids) st fs now oid)) = members st
  ∧ length (logs (final (run (Approve ids) st fs now oid))) = length (logs st)
  ∧ (∀ i l, logs st !! i = Some l →
       ∃ l', logs (final (run (Approve ids) st fs now oid)) !! i = Some l'
             ∧ Log.ID l' = Log.ID l
             ∧ Log.MemberID l' = Log.MemberID l
             ∧ Log.Amount l' = Log.Amount l
             ∧ (Log.ID l ∉ ids → l' = l))
  ∧ outcome (run (Approve []) st [] now oid) = Ok tt
  ∧ final (run (Approve []) st fs now oid) = st.
Proof.
  split_and!.
  - destruct (Approve_final st ids fs now oid) as [-> | ->]; done.
  - destruct (Approve_final st ids fs now oid) as [-> | ->]; done.
  - destruct (Approve_final st ids fs now oid) as [-> | ->]; [done|].
    simpl. by rewrite length_fmap.
  - intros i l Hi.
    destruct (Approve_final st ids fs now oid) as [-> | ->].
    + exists l. by split_and!.
    + exists (approved_at ids now l). split.
      * simpl. by rewrite list_lookup_fmap, Hi.
      * apply approved_at_frame.
  - done.
  - destruct (Approve_final st [] fs now oid) as [-> | ->]; [done|].
    rewrite approved_at_nil. by destruct st.
Qed.

Lemma Approve_frame_witness :
  ∃ l', logs (final (run (Approve [8%N]) ledger_2024 [] 160 0%N)) !! 0%nat = Some l'
        ∧ l' = Log.mk 7%N "M1" "unapproved" 30000 100.
Proof.
  destruct (Approve_frame ledger_2024 [8%N] [] 160 0%N) as (_ & _ & _ & H & _).
  destruct (H 0%nat (Log.mk 7%N "M1" "unapproved" 30000 100)) as (l' & ? & _ & _ & _ & Hl);
    [reflexivity|].
  exists l'. split; [done|]. apply Hl. by_decide.
Defined.

(** ** Dones and Yets *)

Lemma tally_fold_lookup (cur : list Log.t) (a : gmap string Z) (m : string) :
  fold_left tally_step cur a !! m
  = if decide (filter (λ l, Log.MemberID l = m) cur = [])
    then a !! m
    else Some (fold_left int_add (Log.Amount <$> filter (λ l, Log.MemberID l = m) cur)
                         (default 0 (a !! m))).
Proof.
  revert a. induction cur as [|l cur IH]; intros a; simpl; [done|].
  rewrite IH, filter_cons. unfold tally_step at 1 2.
  destruct (decide (Log.MemberID l = m)) as [->|Hne].
  - rewrite lookup_insert_eq. simpl.
    destruct (decide (filter _ cur = [])) as [He|]; [rewrite He|]; done.
  - rewrite lookup_insert_ne by done. done.
Qed.

Lemma tally_lookup (cur : list Log.t) (m : string) :
  tally cur !! m
  = if decide (filter (λ l, Log.MemberID l = m) cur = [])
    then None
    else Some (int_sum (Log.Amount <$> filter (λ l, Log.MemberID l = m) cur)).
Proof.
  unfold tally. change (fold_left _ cur ∅) with (fold_left tally_step cur ∅).
  rewrite tally_fold_lookup, lookup_empty. done.
Qed.

Lemma elem_of_select (keep : Z → Prop) `{!∀ z, Decision (keep z)}
    (amounts : gmap string Z) (m : string) :
  m ∈ select keep amounts ↔ ∃ v, amounts !! m = Some v ∧ keep v.
Proof.
  unfold select. rewrite list_elem_of_fmap. split.
  - intros ([k v] & -> & Hkv). apply elem_of_map_to_list in Hkv.
    apply map_lookup_filter_Some in Hkv as [Hkv Hkeep]. eauto.
  - intros (v & Hv & Hkeep). exists (m, v). split; [done|].
    apply elem_of_map_to_list, map_lookup_filter_Some. done.
Qed.

Lemma elem_of_select_tally (keep : Z → Prop) `{!∀ z, Decision (keep z)} f s m :
  m ∈ select keep (tally (filter (on_roster f) (logs s)))
  ↔ roster_logs f s m ≠ [] ∧ keep (credit f s m).
Proof.
  rewrite elem_of_select. setoid_rewrite tally_lookup.
  unfold credit, roster_logs.
  destruct (decide (filter _ (filter (on_roster f) (logs s)) = [])) as [He|Hne].
  - split; [by intros (v & ? & _)|by intros [? _]].
  - split; [intros (v & [= <-] & ?); done|intros [_ ?]; eauto].
Qed.

Lemma Dones_quiet st year semester now oid f :
  the_term year semester st = Some f →
  run (Dones year semester) st [] now oid
  = (Ok (filter (paid f st) (members st)), mkWorld st [] now oid []).
Proof.
  unfold the_term. intros Hf. exec. rewrite Hf. cbn. do 2 f_equal.
  apply list_filter_iff. intros mb. unfold paid.
  apply (elem_of_select_tally (λ amount, Fee.Amount f ≤ amount)).
Qed.

Lemma Yets_quiet st year semester now oid f :
  the_term year semester st = Some f →
  run (Yets year semester) st [] now oid
  = (Ok (filter (unpaid f st) (members st)), mkWorld st [] now oid []).
Proof.
  unfold the_term. intros Hf. exec. rewrite Hf. cbn. do 2 f_equal.
  apply list_filter_iff. intros mb. unfold unpaid.
  apply (elem_of_select_tally (λ amount, amount < Fee.Amount f)).
Qed.

(** C3 as the specification words it fails on a term whose fee is zero:
    the approved roster logs of "M1" add up to 0, which is at least the
    fee, yet [Dones] returns nobody, because "M1" has no entry in the map
    of totals. *)
Lemma Dones_skips_member_without_logs :
  the_term 2024 1 ledger_free_term = Some (Fee.mk 2024 1 0 [])
  ∧ filter (paid_by_sum (Fee.mk 2024 1 0 []) ledger_free_term) (members ledger_free_term)
    = [Member.mk "M1" "Kim"]
  ∧ outcome (run (Dones 2024 1) ledger_free_term [] 0 0%N) = Ok []
  ∧ outcome (run (Dones 2024 1) ledger_free_term [] 0 0%N)
    ≠ Ok (filter (paid_by_sum (Fee.mk 2024 1 0 []) ledger_free_term)
                 (members ledger_free_term)).
Proof. split_and!; [vm_compute; reflexivity..|vm_compute; discriminate]. Qed.

(** C3, as the code has it.  [Dones] answers [ErrNoDocuments] when no term
    has the key.  When the lookup answers with term [f], it returns the
    member records, in collection order, whose identifier names at least
    one approved log on the roster of [f] and whose approved roster logs
    add up to the fee of [f] or more. *)
Theorem Dones_returns_paid_members st year semester now oid :
  (¬ term_exists year semester st →
     outcome (run (Dones year semester) st [] now oid) = Err ErrNoDocuments)
  ∧ (∀ f, the_term year semester st = Some f →
     outcome (run (Dones year semester) st [] now oid)
       = Ok (filter (paid f st) (members st))
     ∧ final (run (Dones year semester) st [] now oid) = st
     ∧ ∀ mb, mb ∈ filter (paid f st) (members st) ↔
         mb ∈ members st
         ∧ (∃ l, l ∈ logs st ∧ Log.ID l ∈ Fee.Logs f ∧ Log.Type_ l = "approved"
                 ∧ Log.MemberID l = Member.ID mb)
         ∧ Fee.Amount f ≤ credit f st (Member.ID mb)).
Proof.
  split.
  - intros Hno%no_term_the_term. unfold the_term in Hno. exec. by rewrite Hno.
  - intros f Hf. rewrite (Dones_quiet _ _ _ _ _ f Hf). split_and!; [done..|].
    intros mb. rewrite list_elem_of_filter. unfold paid, roster_logs.
    split.
    + intros [[Hne Hle] Hmb]. split_and!; [done| |done].
      destruct (filter _ (filter (on_roster f) (logs st))) as [|l ls] eqn:E; [done|].
      assert (l ∈ l :: ls) as Hl by left. rewrite <- E in Hl.
      apply list_elem_of_filter in Hl as [Hm Hl].
      apply list_elem_of_filter in Hl as [[? ?] ?]. by exists l.
    + intros (Hmb & (l & Hl & Hid & Hty & Hm) & Hle). split_and!; [|done..].
      intros E. eapply (filter_nil_not_elem_of _ _ l E); [done|].
      apply list_elem_of_filter. by split.
Qed.

Lemma Dones_returns_paid_members_witness :
  outcome (run (Dones 2023 1) ledger_paid [] 0 0%N) = Err ErrNoDocuments
  ∧ outcome (run (Dones 2024 1) ledger_paid [] 0 0%N) = Ok [Member.mk "M1" "Kim"].
Proof.
  split.
  - apply (proj1 (Dones_returns_paid_members ledger_paid 2023 1 0 0%N)). by_decide.
  - destruct (proj2 (Dones_returns_paid_members ledger_paid 2024 1 0 0%N) term_2024_1)
      as (H & _); [reflexivity|].
    rewrite H. reflexivity.
Defined.

(** C4.  When the lookup answers with term [f], [Yets] returns the member
    records, in collection order, that have an entry in the map of totals
    (at least one approved log on the roster of [f]) and whose total is
    strictly below the fee of [f].  Every member returned by [Dones] or by
    [Yets] has at least one approved log on the roster, so a member without
    any is in neither result. *)
Theorem Yets_returns_unpaid_members st year semester now oid f :
  the_term year semester st = Some f →
  ∃ dones yets,
    outcome (run (Dones year semester) st [] now oid) = Ok dones
    ∧ outcome (run (Yets year semester) st [] now oid) = Ok yets
    ∧ yets = filter (unpaid f st) (members st)
    ∧ (∀ mb, mb ∈ yets ↔
         mb ∈ members st
         ∧ roster_logs f st (Member.ID mb) ≠ []
         ∧ credit f st (Member.ID mb) < Fee.Amount f)
    ∧ (∀ mb, (mb ∈ dones ∨ mb ∈ yets) →
         ∃ l, l ∈ logs st ∧ Log.ID l ∈ Fee.Logs f ∧ Log.Type_ l = "approved"
              ∧ Log.MemberID l = Member.ID mb)
    ∧ (∀ mb, roster_logs f st (Member.ID mb) = [] → (mb ∉ dones) ∧ (mb ∉ yets))
    ∧ (∀ mb, ¬ (mb ∈ dones ∧ mb ∈ yets)).
Proof.
  intros Hf. exists (filter (paid f st) (members st)), (filter (unpaid f st) (members st)).
  rewrite (Dones_quiet _ _ _ _ _ f Hf), (Yets_quiet _ _ _ _ _ f Hf).
  split_and!; [done..| | | |].
  - intros mb. rewrite list_elem_of_filter. unfold unpaid. tauto.
  - intros mb Hmb.
    assert (roster_logs f st (Member.ID mb) ≠ []) as Hne.
    { destruct Hmb as [[[? _] _]%list_elem_of_filter|[[? _] _]%list_elem_of_filter]; done. }
    unfold roster_logs in Hne.
    destruct (filter _ (filter (on_roster f) (logs st))) as [|l ls] eqn:E; [done|].
    assert (l ∈ l :: ls) as Hl by left. rewrite <- E in Hl.
    apply list_elem_of_filter in Hl as [Hm Hl].
    apply list_elem_of_filter in Hl as [[? ?] ?]. by exists l.
  - intros mb Hnil. rewrite !list_elem_of_filter. unfold paid, unpaid. tauto.
  - intros mb. rewrite !list_elem_of_filter. unfold paid, unpaid. lia.
Qed.

Lemma Yets_returns_unpaid_members_witness :
  ∃ dones yets,
    outcome (run (Dones 2024 1) ledger_paid [] 0 0%N) = Ok dones
    ∧ outcome (run (Yets 2024 1) ledger_paid [] 0 0%N) = Ok yets
    ∧ yets = [Member.mk "M2" "Lee"]
    ∧ (Member.mk "M3" "Park" ∉ dones) ∧ (Member.mk "M3" "Park" ∉ yets).
Proof.
  destruct (Yets_returns_unpaid_members ledger_paid 2024 1 0 0%N term_2024_1)
    as (dones & yets & Hd & Hy & Heq & _ & _ & Hzero & _); [reflexivity|].
  exists dones, yets. split_and!; [done..| | |].
  - rewrite Heq. reflexivity.
  - apply (Hzero (Member.mk "M3" "Park")). reflexivity.
  - apply (Hzero (Member.mk "M3" "Park")). reflexivity.
Defined.

(** ** All *)

Lemma by_updated_at_order : strict_weak_order by_updated_at.
Proof.
  unfold strict_weak_order, by_updated_at. split_and!.
  - intros a. apply Z.ltb_irrefl.
  - intros a b c. rewrite !Z.ltb_lt. lia.
  - intros a b c. rewrite !Z.ltb_ge. lia.
Qed.

Lemma StronglySorted_impl {A} (R1 R2 : A → A → Prop) (l : list A) :
  (∀ a b, R1 a b → R2 a b) → StronglySorted R1 l → StronglySorted R2 l.
Proof.
  intros HR. induction 1 as [|x l Hl IH Hx]; constructor; [done|].
  eapply Forall_impl; [exact Hx|]. auto.
Qed.

Lemma All_quiet srt st year semester now oid f :
  the_term year semester st = Some f →
  run (All srt year semester) st [] now oid
  = (Ok (srt by_updated_at (filter (shown f) (logs st))), mkWorld st [] now oid []).
Proof. unfold the_term. intros Hf. exec. by rewrite Hf. Qed.

(** C5.  For any [sort.Slice] that keeps its promise: [All] answers
    [ErrNoDocuments] when no term has the key; otherwise, with [f] the term
    the lookup answers with, it returns exactly the stored logs whose
    identifier is on the roster of [f] and whose type is approved or direct
    (so no unapproved log), each as often as it is stored, in ascending
    order of [updated_at]. *)
Theorem All_returns_roster_sorted srt st year semester now oid :
  sort_contract srt →
  (¬ term_exists year semester st →
     outcome (run (All srt year semester) st [] now oid) = Err ErrNoDocuments)
  ∧ (∀ f, the_term year semester st = Some f →
     ∃ ls, outcome (run (All srt year semester) st [] now oid) = Ok ls
           ∧ ls ≡ₚ filter (shown f) (logs st)
           ∧ (∀ l, l ∈ ls ↔
                l ∈ logs st ∧ Log.ID l ∈ Fee.Logs f
                ∧ (Log.Type_ l = "approved" ∨ Log.Type_ l = "direct"))
           ∧ (∀ l, l ∈ ls → Log.Type_ l ≠ "unapproved")
           ∧ StronglySorted (λ a b, Log.UpdatedAt a ≤ Log.UpdatedAt b) ls).
Proof.
  intros Hsrt. split.
  - intros Hno%no_term_the_term. unfold the_term in Hno. exec. by rewrite Hno.
  - intros f Hf. rewrite (All_quiet srt _ _ _ _ _ f Hf).
    destruct (Hsrt by_updated_at (filter (shown f) (logs st))) as [Hperm Hsorted].
    eexists. split; [reflexivity|].
    assert (∀ l, l ∈ srt by_updated_at (filter (shown f) (logs st)) ↔
              l ∈ logs st ∧ Log.ID l ∈ Fee.Logs f
              ∧ (Log.Type_ l = "approved" ∨ Log.Type_ l = "direct")) as Hmem.
    { intros l. rewrite Hperm, list_elem_of_filter. unfold shown. tauto. }
    split_and!; [done|done| |].
    + intros l (_ & _ & [Hty|Hty])%Hmem; rewrite Hty; discriminate.
    + eapply StronglySorted_impl; [|apply Hsorted, by_updated_at_order].
      intros a b. unfold by_updated_at. rewrite Z.ltb_ge. done.
Qed.

Lemma merge_sort_Slice_contract : sort_contract merge_sort_Slice.
Proof.
  intros less l. unfold merge_sort_Slice. split.
  - apply merge_sort_Permutation.
  - intros (Hirr & Htr & Hneg).
    assert (Transitive (not_after less)) as Htrans.
    { intros a b c Hab Hbc. unfold not_after in *. eauto. }
    assert (Total (not_after less)) as Htotal.
    { intros a b. unfold not_after. destruct (less b a) eqn:Hba; [|by left].
      right. destruct (less a b) eqn:Hab; [|done].
      rewrite <- (Hirr a). symmetry. eauto. }
    apply (StronglySorted_merge_sort (not_after less)).
Qed.

Lemma All_returns_roster_sorted_witness :
  outcome (run (All merge_sort_Slice 2023 1) ledger_mixed [] 0 0%N) = Err ErrNoDocuments
  ∧ ∃ ls, outcome (run (All merge_sort_Slice 2024 1) ledger_mixed [] 0 0%N) = Ok ls
          ∧ ls ≡ₚ [Log.mk 1%N "M1" "approved" 30000 300; Log.mk 2%N "" "direct" 50000 100]
          ∧ StronglySorted (λ a b, Log.UpdatedAt a ≤ Log.UpdatedAt b) ls.
Proof.
  split.
  - apply (proj1 (All_returns_roster_sorted merge_sort_Slice ledger_mixed 2023 1 0 0%N
                    merge_sort_Slice_contract)).
    by_decide.
  - destruct (proj2 (All_returns_roster_sorted merge_sort_Slice ledger_mixed 2024 1 0 0%N
                       merge_sort_Slice_contract)
                (Fee.mk 2024 1 50000 [1%N; 2%N; 3%N]))
      as (ls & Hls & Hperm & _ & _ & Hsorted); [reflexivity|].
    exists ls. by split_and!.
Defined.

Example All_on_ledger_mixed :
  outcome (run (All merge_sort_Slice 2024 1) ledger_mixed [] 0 0%N)
  = Ok [Log.mk 2%N "" "direct" 50000 100; Log.mk 1%N "M1" "approved" 30000 300].
Proof. vm_compute. reflexivity. Qed.

(** ** Successful runs, step by step *)

Lemma bind_Ok {A B} (m : M A) (k : A → M B) w b w' :
  bind m k w = (Ok b, w') → ∃ a w1, m w = (Ok a, w1) ∧ k a w1 = (Ok b, w').
Proof.
  unfold bind. destruct (m w) as [[a|e] w1]; [|done]. intros Hk. eauto.
Qed.

Lemma driver_call_Ok w u w' :
  driver_call w = (Ok u, w') →
  store w' = store w ∧ hist w' = hist w ∧ same_env w w'.
Proof.
  unfold driver_call, same_env. destruct w as [s fs now oid h]; simpl.
  destruct fs as [|[c|] fs]; intros [= <- <-]; done.
Qed.

(** A write behind one driver call: on success the store is [g] of the old
    one and the new store is the last entry of the history. *)
Lemma write_Ok (g : Store → Store) w u w' :
  (driver_call ;;; s <- get_store ;; put_store (g s)) w = (Ok u, w') →
  store w' = g (store w) ∧ hist w' = hist w ++ [g (store w)] ∧ same_env w w'.
Proof.
  intros (? & w1 & (Hs & Hh & Hc & Hf)%driver_call_Ok & H)%bind_Ok.
  unfold bind, get_store, put_store in H. simpl in H.
  injection H as _ <-. simpl. unfold same_env. simpl.
  rewrite Hs, Hh, Hc, Hf. done.
Qed.

(** ** Reject *)

Lemma delete_first_ids_subset id (ls : list Log.t) x :
  x ∈ Log.ID <$> delete_first (has_id id) ls → x ∈ Log.ID <$> ls.
Proof.
  rewrite !list_elem_of_fmap. intros (l & -> & Hl). exists l. split; [done|].
  by eapply elem_of_delete_first.
Qed.

Lemma delete_first_NoDup id (ls : list Log.t) :
  NoDup (Log.ID <$> ls) → NoDup (Log.ID <$> delete_first (has_id id) ls).
Proof.
  induction ls as [|l ls IH]; simpl; [done|].
  rewrite NoDup_cons. intros [Hl Hls].
  destruct (decide (has_id id l)); [done|].
  rewrite fmap_cons, NoDup_cons. split; [|auto].
  intros Hin. apply Hl. by eapply delete_first_ids_subset.
Qed.

Lemma delete_first_gone id (ls : list Log.t) :
  NoDup (Log.ID <$> ls) → id ∉ Log.ID <$> delete_first (has_id id) ls.
Proof.
  induction ls as [|l ls IH]; simpl; [intros _; apply not_elem_of_nil|].
  rewrite NoDup_cons. intros [Hl Hls].
  destruct (decide (has_id id l)) as [Hid|Hid].
  - unfold has_id in Hid. by rewrite <- Hid.
  - rewrite fmap_cons, not_elem_of_cons. split; [|auto].
    unfold has_id in Hid. congruence.
Qed.

Lemma rejected_logs_subset year semester ids s x :
  x ∈ Log.ID <$> logs (rejected year semester ids s) → x ∈ Log.ID <$> logs s.
Proof.
  revert s. induction ids as [|id ids IH]; intros s; simpl; [done|].
  intros Hx%IH. simpl in Hx. by eapply delete_first_ids_subset.
Qed.

Lemma rejected_unique year semester ids s :
  unique_log_ids s → unique_log_ids (rejected year semester ids s).
Proof.
  revert s. induction ids as [|id ids IH]; intros s Hs; simpl; [done|].
  apply IH. unfold unique_log_ids. simpl. by apply delete_first_NoDup.
Qed.

Lemma rejected_logs_gone year semester ids s id :
  unique_log_ids s → id ∈ ids → id ∉ Log.ID <$> logs (rejected year semester ids s).
Proof.
  revert s. induction ids as [|x ids IH]; intros s Hs; [by intros ?%elem_of_nil|].
  rewrite elem_of_cons. simpl. intros [->|Hin].
  - intros Hx%rejected_logs_subset. simpl in Hx.
    by eapply delete_first_gone.
  - apply IH; [|done]. unfold unique_log_ids. simpl. by apply delete_first_NoDup.
Qed.

Lemma the_term_pulled year semester id s :
  the_term year semester (deleted id (pulled year semester id s))
  = pull_log id <$> the_term year semester s.
Proof.
  unfold the_term. simpl.
  destruct (find_first (fee_key year semester) (fees s)) as [f|] eqn:Hf; simpl.
  - apply find_first_update_first; [|done]. by intros [] [].
  - apply find_first_None in Hf. rewrite update_first_none by done.
    by apply find_first_None.
Qed.

Lemma the_term_rejected year semester ids s f :
  the_term year semester (rejected year semester ids s) = Some f →
  ∃ f0, the_term year semester s = Some f0
        ∧ Fee.Logs f = filter (λ x, x ∉ ids) (Fee.Logs f0).
Proof.
  revert s. induction ids as [|id ids IH]; intros s; simpl.
  - intros Hf. exists f. split; [done|].
    induction (Fee.Logs f) as [|x l IHl]; [done|].
    rewrite filter_cons_True by apply not_elem_of_nil. by rewrite <- IHl.
  - intros (f1 & Hf1 & ->)%IH. rewrite the_term_pulled in Hf1.
    destruct (the_term year semester s) as [f0|]; [|done].
    injection Hf1 as <-. exists f0. split; [done|]. simpl.
    rewrite list_filter_filter. apply list_filter_iff.
    intros x. rewrite not_elem_of_cons. tauto.
Qed.

Lemma Reject_range_Ok year semester ids w u w' :
  Reject_range year semester ids w = (Ok u, w') →
  store w' = rejected year semester ids (store w) ∧ same_env w w'.
Proof.
  revert w. induction ids as [|id ids IH]; intros w; simpl.
  - unfold ret. intros [= <- <-]. done.
  - intros (? & w1 & Hpull & (? & w2 & Hdel & Hrest)%bind_Ok)%bind_Ok.
    apply (write_Ok (pulled year semester id)) in Hpull as (Hs1 & _ & Hc1 & Hf1).
    apply (write_Ok (deleted id)) in Hdel as (Hs2 & _ & Hc2 & Hf2).
    apply IH in Hrest as (Hs3 & Hc3 & Hf3).
    rewrite Hs3, Hs2, Hs1. unfold same_env. split; [done|]. split; congruence.
Qed.

Lemma Reject_Ok st year semester ids fs now oid :
  outcome (run (Reject year semester ids) st fs now oid) = Ok tt →
  final (run (Reject year semester ids) st fs now oid) = rejected year semester ids st.
Proof.
  unfold outcome, final, run.
  destruct (Reject year semester ids _) as [r w'] eqn:E. simpl. intros ->.
  unfold Reject in E.
  apply bind_Ok in E as (? & w1 & (Hs1 & _)%driver_call_Ok & E).
  apply bind_Ok in E as (? & w2 & (Hs2 & _)%Reject_range_Ok & (Hs3 & _)%driver_call_Ok).
  rewrite Hs3, Hs2, Hs1. done.
Qed.

Lemma Reject_quiet st year semester ids now oid :
  outcome (run (Reject year semester ids) st [] now oid) = Ok tt.
Proof.
  unfold outcome, run, Reject, Connect, Disconnect.
  change (driver_call (mkWorld st [] now oid [])) with (Ok tt, mkWorld st [] now oid []).
  unfold bind at 1. simpl.
  assert (∀ w, faults w = [] →
            ∃ w', Reject_range year semester ids w = (Ok tt, w') ∧ faults w' = []) as H.
  { induction ids as [|id ids IH]; intros w Hw; simpl.
    - exists w. done.
    - destruct w as [s fs c o h]. simpl in Hw. subst fs.
      edestruct IH as (w' & Hw' & Hfs); [|exists w'; split; [|done]].
      2:{ exec. exact Hw'. }
      done. }
  destruct (H (mkWorld st [] now oid []) eq_refl) as (w' & Hw' & Hfs).
  unfold bind. rewrite Hw'. unfold driver_call. rewrite Hfs. done.
Qed.

(** With the first [2 * length pre] calls of the loop let through, the
    loop has dealt with [pre] and stands before the rest. *)
Lemma Reject_range_prefix year semester pre post w fs' :
  faults w = replicate (2 * length pre)%nat None ++ fs' →
  ∃ w1, store w1 = rejected year semester pre (store w)
        ∧ faults w1 = fs'
        ∧ Reject_range year semester (pre ++ post) w = Reject_range year semester post w1.
Proof.
  revert w. induction pre as [|x pre IH]; intros w Hw.
  - exists w. done.
  - destruct w as [s fs c o h]. simpl in Hw.
    replace (length pre + S (length pre + 0))%nat with (S (2 * length pre))%nat in Hw by lia.
    simpl in Hw. subst fs.
    edestruct (IH (mkWorld (deleted x (pulled year semester x s))
                           (replicate (2 * length pre)%nat None ++ fs') c o
                           (h ++ [pulled year semester x s]
                              ++ [deleted x (pulled year semester x s)])))
      as (w1 & Hs1 & Hf1 & Hrun); [done|].
    exists w1. split_and!; [done..|].
    rewrite <- Hrun. simpl. exec. by rewrite <- app_assoc.
Qed.

Lemma Reject_abort_shape year semester pre post st fs' now oid :
  ∃ w1, store w1 = rejected year semester pre st
        ∧ faults w1 = fs'
        ∧ run (Reject year semester (pre ++ post)) st
              (None :: replicate (2 * length pre)%nat None ++ fs') now oid
          = (Reject_range year semester post ;;; Disconnect) w1.
Proof.
  destruct (Reject_range_prefix year semester pre post
              (mkWorld st (replicate (2 * length pre)%nat None ++ fs') now oid [])
              fs' eq_refl) as (w1 & Hs & Hf & Hrun).
  exists w1. split_and!; [done..|].
  unfold run, Reject, Connect. unfold bind at 1. unfold driver_call at 1.
  cbn [faults store clock fresh hist]. unfold bind at 1. rewrite Hrun. done.
Qed.

(** C6.  [Reject] goes through [ids] from left to right and for each
    identifier first pulls it from the roster of the term the key selects
    and then deletes the log.  A driver failure at the pull or at the
    delete of an identifier ends the run with that failure: the earlier
    identifiers are fully rejected, the later ones untouched (and at a
    failed delete the identifier at hand is pulled but its log still
    stored).  In a run that ends without error, on a collection of logs
    with unique identifiers, every identifier of [ids] is gone from the
    logs and from the roster of the selected term. *)
Theorem Reject_pulls_then_deletes st year semester ids now oid :
  (outcome (run (Reject year semester ids) st [] now oid) = Ok tt
   ∧ final (run (Reject year semester ids) st [] now oid) = rejected year semester ids st)
  ∧ (∀ id, seen (run (Reject year semester [id]) st [] now oid)
           = [pulled year semester id st; deleted id (pulled year semester id st)])
  ∧ (∀ fs, unique_log_ids st →
       outcome (run (Reject year semester ids) st fs now oid) = Ok tt →
       ∀ id, id ∈ ids →
         (id ∉ Log.ID <$> logs (final (run (Reject year semester ids) st fs now oid)))
         ∧ ∀ f, the_term year semester (final (run (Reject year semester ids) st fs now oid))
                = Some f → id ∉ Fee.Logs f)
  ∧ (∀ pre id post c rest, ids = pre ++ id :: post →
       outcome (run (Reject year semester ids) st
                  (None :: replicate (2 * length pre)%nat None ++ Some c :: rest) now oid)
       = Err (ErrDriver c)
       ∧ final (run (Reject year semester ids) st
                  (None :: replicate (2 * length pre)%nat None ++ Some c :: rest) now oid)
         = rejected year semester pre st)
  ∧ (∀ pre id post c rest, ids = pre ++ id :: post →
       outcome (run (Reject year semester ids) st
                  (None :: replicate (2 * length pre)%nat None ++ None :: Some c :: rest)
                  now oid)
       = Err (ErrDriver c)
       ∧ final (run (Reject year semester ids) st
                  (None :: replicate (2 * length pre)%nat None ++ None :: Some c :: rest)
                  now oid)
         = pulled year semester id (rejected year semester pre st)).
Proof.
  split_and!.
  - apply Reject_quiet.
  - apply Reject_Ok, Reject_quiet.
  - reflexivity.
  - intros fs Huniq Hok id Hid. rewrite (Reject_Ok _ _ _ _ _ _ _ Hok). split.
    + by apply rejected_logs_gone.
    + intros f (f0 & _ & Hlogs)%the_term_rejected. rewrite Hlogs.
      intros [Hnot _]%list_elem_of_filter. done.
  - intros pre id post c rest ->.
    destruct (Reject_abort_shape year semester pre (id :: post) st (Some c :: rest) now oid)
      as (w1 & Hs & Hf & ->).
    destruct w1 as [s1 fs1 c1 o1 h1]. simpl in *. subst. exec. done.
  - intros pre id post c rest ->.
    destruct (Reject_abort_shape year semester pre (id :: post) st
                (None :: Some c :: rest) now oid) as (w1 & Hs & Hf & ->).
    destruct w1 as [s1 fs1 c1 o1 h1]. simpl in *. subst. exec. done.
Qed.

Lemma Reject_pulls_then_deletes_witness :
  (7%N ∉ Log.ID <$> logs (final (run (Reject 2024 1 [7%N]) ledger_2024 [] 0 0%N)))
  ∧ (∀ f, the_term 2024 1 (final (run (Reject 2024 1 [7%N]) ledger_2024 [] 0 0%N)) = Some f →
          7%N ∉ Fee.Logs f)
  ∧ outcome (run (Reject 2024 1 [7%N; 8%N]) ledger_2024 [None; None; Some 5%N] 0 0%N)
    = Err (ErrDriver 5%N).
Proof.
  destruct (Reject_pulls_then_deletes ledger_2024 2024 1 [7%N] 0 0%N)
    as ([Hok _] & _ & Hgone & _ & _).
  destruct (Hgone [] ltac:(by_decide) Hok 7%N ltac:(by_decide)) as [Hlog Hterm].
  split_and!; [done..|].
  destruct (Reject_pulls_then_deletes ledger_2024 2024 1 [7%N; 8%N] 0 0%N)
    as (_ & _ & _ & _ & Hdel).
  apply (Hdel [] 7%N [8%N] 5%N [] eq_refl).
Defined.

(** ** Reachable stores and dangling references *)

Example ledger_misrejected_value :
  ledger_misrejected = mkStore [Fee.mk 2024 1 50000 [7%N]; Fee.mk 2024 2 50000 []] [] [].
Proof. vm_compute. reflexivity. Qed.

(** C9 as the specification words it fails: four runs without error lead
    from the empty ledger to a store in which the term (2024, 1) lists the
    identifier 7 while no log with that identifier is stored. *)
Lemma Reject_of_other_term_leaves_dangling :
  reachable_by any_call ledger_misrejected ∧ ¬ no_dangling ledger_misrejected.
Proof.
  split.
  - unfold ledger_misrejected, ledger_step3, ledger_step2, ledger_step1.
    repeat (apply reachable_step; [|exact I|vm_compute; reflexivity]).
    by apply reachable_empty.
  - by_decide.
Qed.

(** The other way C9 fails: [Deposit] pushes the identifier before it
    inserts the log, so between its two writes the roster names a log
    that is not stored yet. *)
Example Deposit_dangles_between_writes :
  ∃ s1 s2, seen (run (Deposit 2024 1 50000) ledger_step1 [] 100 9%N) = [s1; s2]
           ∧ ¬ no_dangling s1 ∧ no_dangling s2.
Proof.
  eexists _, _. split; [vm_compute; reflexivity|]. split; by_decide.
Qed.

(** *** How single writes treat the invariant *)

Lemma no_dangling_alt s :
  no_dangling s ↔ ∀ f id, f ∈ fees s → id ∈ Fee.Logs f → id ∈ Log.ID <$> logs s.
Proof.
  unfold no_dangling. rewrite Forall_forall. setoid_rewrite Forall_forall.
  split; intros H; intros; eapply H; eauto.
Qed.

Lemma owned_alt year semester ids s :
  owned year semester ids s ↔
  ∀ f id, f ∈ fees s → id ∈ ids → id ∈ Fee.Logs f → fee_key year semester f.
Proof.
  unfold owned. rewrite Forall_forall. setoid_rewrite Forall_forall.
  split; intros H; intros; eapply H; eauto.
Qed.

Lemma update_first_keys year semester (h : Fee.t → Fee.t) (fs : list Fee.t) :
  (∀ f, term_key (h f) = term_key f) →
  term_key <$> update_first (fee_key year semester) h fs = term_key <$> fs.
Proof.
  intros Hh. induction fs as [|x fs IH]; simpl; [done|].
  destruct (decide (fee_key year semester x)); rewrite !fmap_cons; [by rewrite Hh|].
  by rewrite IH.
Qed.

(** With unique keys, an update by key touches the one term of that key. *)
Lemma elem_of_update_first_unique year semester (h : Fee.t → Fee.t) (fs : list Fee.t) g :
  NoDup (term_key <$> fs) →
  g ∈ update_first (fee_key year semester) h fs →
  (g ∈ fs ∧ ¬ fee_key year semester g)
  ∨ (∃ x, x ∈ fs ∧ fee_key year semester x ∧ g = h x).
Proof.
  induction fs as [|x fs IH]; simpl; [by intros _ ?%elem_of_nil|].
  rewrite NoDup_cons. intros [Hx Hfs].
  destruct (decide (fee_key year semester x)) as [Hk|Hk]; rewrite elem_of_cons.
  - intros [->|Hg].
    + right. exists x. split_and!; [left|done..].
    + left. split; [by right|]. intros Hg'. apply Hx.
      apply list_elem_of_fmap. exists g. split; [|done].
      unfold term_key. destruct Hk as [-> ->], Hg' as [-> ->]. done.
  - intros [->|Hg].
    + left. split; [left|done].
    + destruct (IH Hfs Hg) as [[? ?]|(y & ? & ? & ?)].
      * left. split; [by right|done].
      * right. exists y. split_and!; [by right|done..].
Qed.

Lemma delete_first_keeps_others id (ls : list Log.t) x :
  x ≠ id → x ∈ Log.ID <$> ls → x ∈ Log.ID <$> delete_first (has_id id) ls.
Proof.
  intros Hne. induction ls as [|l ls IH]; simpl; [done|].
  rewrite ?fmap_cons, elem_of_cons. destruct (decide (has_id id l)) as [Hid|Hid].
  - intros [->|?]; [|done]. unfold has_id in Hid. congruence.
  - rewrite ?fmap_cons, elem_of_cons. intros [->|?]; [by left|right; auto].
Qed.

Lemma inv_empty s : fees s = [] → logs s = [] → ledger_inv s.
Proof.
  intros Hf Hl. unfold ledger_inv, unique_log_ids, unique_term_keys, no_dangling.
  rewrite Hf, Hl. split_and!; constructor.
Qed.

Lemma inv_create year semester amount s :
  find_first (fee_key year semester) (fees s) = None →
  ledger_inv s →
  ledger_inv (with_fees s (fees s ++ [New year semester amount])).
Proof.
  intros Hnone%find_first_None (Hl & Hk & Hd). split_and!.
  - done.
  - unfold unique_term_keys. simpl. rewrite fmap_app. apply NoDup_app.
    split_and!; [done| |apply NoDup_singleton].
    intros k (f & -> & Hf)%list_elem_of_fmap Hk'%list_elem_of_singleton.
    rewrite Forall_forall in Hnone. apply (Hnone f Hf).
    unfold term_key in Hk'. simpl in Hk'. unfold fee_key. by simplify_eq.
  - unfold no_dangling. simpl. apply Forall_app. split; [done|].
    repeat constructor.
Qed.

Lemma inv_insert_log l s :
  Log.ID l ∉ Log.ID <$> logs s →
  ledger_inv s → ledger_inv (with_logs s (logs s ++ [l])).
Proof.
  intros Hfresh (Hl & Hk & Hd). split_and!.
  - unfold unique_log_ids. simpl. rewrite fmap_app. apply NoDup_app.
    split_and!; [done| |apply NoDup_singleton].
    intros x Hx ->%list_elem_of_singleton. done.
  - done.
  - apply no_dangling_alt. intros f id Hf Hid. simpl. rewrite fmap_app, elem_of_app.
    left. by eapply no_dangling_alt.
Qed.

Lemma inv_push year semester id s :
  id ∈ Log.ID <$> logs s →
  ledger_inv s →
  ledger_inv (with_fees s (update_first (fee_key year semester) (push_log id) (fees s))).
Proof.
  intros Hid (Hl & Hk & Hd). split_and!.
  - done.
  - unfold unique_term_keys. simpl. by rewrite update_first_keys.
  - apply no_dangling_alt. intros g x Hg Hx. simpl in *.
    apply elem_of_update_first in Hg as [Hg|(f & Hf & _ & ->)].
    + by eapply no_dangling_alt.
    + simpl in Hx. apply elem_of_app in Hx as [Hx|Hx%list_elem_of_singleton];
        [|by subst].
      by eapply no_dangling_alt.
Qed.

Lemma approved_at_ids ids now (ls : list Log.t) :
  Log.ID <$> (approved_at ids now <$> ls) = Log.ID <$> ls.
Proof.
  rewrite <- list_fmap_compose. apply list_fmap_ext. intros i l _. simpl.
  apply approved_at_frame.
Qed.

Lemma inv_approve ids now s :
  ledger_inv s → ledger_inv (with_logs s (approved_at ids now <$> logs s)).
Proof.
  intros (Hl & Hk & Hd). unfold ledger_inv, unique_log_ids, no_dangling. simpl.
  rewrite approved_at_ids. done.
Qed.

Lemma inv_pull year semester id s :
  ledger_inv s → ledger_inv (pulled year semester id s).
Proof.
  intros (Hl & Hk & Hd). split_and!.
  - done.
  - unfold unique_term_keys. simpl. by rewrite update_first_keys.
  - apply no_dangling_alt. intros g x Hg Hx. simpl in *.
    apply elem_of_update_first in Hg as [Hg|(f & Hf & _ & ->)].
    + by eapply no_dangling_alt.
    + simpl in Hx. apply list_elem_of_filter in Hx as [_ Hx].
      by eapply no_dangling_alt.
Qed.

Lemma pulled_forgets year semester id s g :
  unique_term_keys s → owned year semester [id] s →
  g ∈ fees (pulled year semester id s) → id ∉ Fee.Logs g.
Proof.
  intros Hk Hown Hg. simpl in Hg.
  apply elem_of_update_first_unique in Hg as [[Hg Hnk]|(f & Hf & _ & ->)]; [| |done].
  - intros Hid. apply Hnk. eapply owned_alt; [done..|left|done].
  - simpl. intros [Hne _]%list_elem_of_filter. done.
Qed.

Lemma inv_reject_one year semester id s :
  owned year semester [id] s →
  ledger_inv s → ledger_inv (deleted id (pulled year semester id s)).
Proof.
  intros Hown Hinv. pose proof Hinv as (_ & Hk0 & _).
  destruct (inv_pull year semester id s Hinv) as (Hl & Hk & Hd). split_and!.
  - unfold unique_log_ids. simpl. by apply delete_first_NoDup.
  - done.
  - apply no_dangling_alt. intros g x Hg Hx.
    change (fees (deleted id (pulled year semester id s)))
      with (fees (pulled year semester id s)) in Hg.
    change (logs (deleted id (pulled year semester id s)))
      with (delete_first (has_id id) (logs (pulled year semester id s))).
    apply delete_first_keeps_others.
    + intros ->. exact (pulled_forgets year semester id s g Hk0 Hown Hg Hx).
    + by eapply (proj1 (no_dangling_alt _) Hd).
Qed.

Lemma owned_cons year semester id ids s :
  owned year semester (id :: ids) s ↔
  owned year semester [id] s ∧ owned year semester ids s.
Proof.
  rewrite !owned_alt. setoid_rewrite elem_of_cons. split.
  - intros H. split; intros f x Hf Hx; [|by eauto].
    intros Hin. apply (H f x Hf); [|done]. left.
    by destruct Hx as [->|?%elem_of_nil].
  - intros [H1 H2] f x Hf [->|Hx] Hin; [apply (H1 f id Hf); [by left|done]|by eauto].
Qed.

Lemma owned_reject_one year semester id ids s :
  owned year semester ids s →
  owned year semester ids (deleted id (pulled year semester id s)).
Proof.
  rewrite !owned_alt. intros Hown g x Hg Hx Hin. simpl in Hg.
  apply elem_of_update_first in Hg as [Hg|(f & Hf & Hfirst & ->)]; [by eauto|].
  apply find_first_Some in Hfirst as [_ Hkey]. by destruct f, Hkey.
Qed.

(** *** Runs that return no error *)

Lemma Create_Ok st year semester amount fs now oid :
  outcome (run (Create year semester amount) st fs now oid) = Ok tt →
  find_first (fee_key year semester) (fees st) = None
  ∧ final (run (Create year semester amount) st fs now oid)
    = with_fees st (fees st ++ [New year semester amount])
  ∧ seen (run (Create year semester amount) st fs now oid)
    = [with_fees st (fees st ++ [New year semester amount])].
Proof.
  destruct (find_first (fee_key year semester) (fees st)) as [f|] eqn:E;
    faults_cases fs; exec; rewrite ?E; cbn; try discriminate; done.
Qed.

Lemma Submit_Ok st memberID year semester amount fs now oid :
  outcome (run (Submit memberID year semester amount) st fs now oid) = Ok tt →
  let log := Log.mk oid memberID "unapproved" amount now in
  let s1 := with_logs st (logs st ++ [log]) in
  let s2 := with_fees s1 (update_first (fee_key year semester) (push_log oid) (fees st)) in
  (oid ∉ Log.ID <$> logs st)
  ∧ final (run (Submit memberID year semester amount) st fs now oid) = s2
  ∧ seen (run (Submit memberID year semester amount) st fs now oid) = [s1; s2].
Proof.
  faults_cases fs; exec; repeat case_decide; cbn; try discriminate; done.
Qed.

Lemma Approve_Ok st ids fs now oid :
  outcome (run (Approve ids) st fs now oid) = Ok tt →
  final (run (Approve ids) st fs now oid)
  = with_logs st (approved_at ids now <$> logs st)
  ∧ seen (run (Approve ids) st fs now oid)
    = [with_logs st (approved_at ids now <$> logs st)].
Proof. faults_cases fs; exec; try discriminate; done. Qed.

Lemma Deposit_Ok st year semester amount fs now oid :
  fs !! 2%nat = None ∨ fs !! 2%nat = Some None →
  outcome (run (Deposit year semester amount) st fs now oid) = Ok tt →
  let s1 := with_fees st (update_first (fee_key year semester) (push_log oid) (fees st)) in
  (oid ∈ Log.ID <$> logs st
   ∧ final (run (Deposit year semester amount) st fs now oid) = s1)
  ∨ ((oid ∉ Log.ID <$> logs st)
     ∧ final (run (Deposit year semester amount) st fs now oid)
       = with_logs s1 (logs st ++ [Log.mk oid "" "direct" amount now])).
Proof.
  intros Hfs. faults_cases fs; exec; repeat case_decide; cbn; try discriminate;
    try (by left); try (by right).
  all: by destruct Hfs.
Qed.

Lemma Reject_range_inv year semester ids w u w' :
  ledger_inv (store w) → owned year semester ids (store w) →
  Forall no_dangling (hist w) →
  Reject_range year semester ids w = (Ok u, w') →
  ledger_inv (store w') ∧ Forall no_dangling (hist w').
Proof.
  revert w. induction ids as [|id ids IH]; intros w Hinv Hown Hh; simpl.
  - unfold ret. intros [= <- <-]. done.
  - intros (? & w1 & Hpull & (? & w2 & Hdel & Hrest)%bind_Ok)%bind_Ok.
    apply (write_Ok (pulled year semester id)) in Hpull as (Hs1 & Hh1 & _).
    apply (write_Ok (deleted id)) in Hdel as (Hs2 & Hh2 & _).
    apply owned_cons in Hown as [Hown1 Hown].
    pose proof (inv_pull year semester id _ Hinv) as Hinv1.
    pose proof (inv_reject_one year semester id _ Hown1 Hinv) as Hinv2.
    rewrite Hs1 in Hs2, Hh2.
    apply (IH w2); [by rewrite Hs2| | |done].
    + rewrite Hs2. by apply owned_reject_one.
    + rewrite Hh2, Hh1. repeat (apply Forall_app; split); [done|..].
      * repeat constructor. apply Hinv1.
      * repeat constructor. apply Hinv2.
Qed.

Lemma Reject_inv st year semester ids fs now oid :
  ledger_inv st → owned year semester ids st →
  outcome (run (Reject year semester ids) st fs now oid) = Ok tt →
  ledger_inv (final (run (Reject year semester ids) st fs now oid))
  ∧ Forall no_dangling (seen (run (Reject year semester ids) st fs now oid)).
Proof.
  intros Hinv Hown. unfold outcome, final, seen, run.
  destruct (Reject year semester ids _) as [r w'] eqn:E. simpl. intros ->.
  unfold Reject in E.
  apply bind_Ok in E as (? & w1 & (Hs1 & Hh1 & _)%driver_call_Ok & E).
  apply bind_Ok in E as (? & w2 & Hrange & (Hs3 & Hh3 & _)%driver_call_Ok).
  simpl in Hs1, Hh1. rewrite Hs3, Hh3.
  eapply Reject_range_inv; [| | |exact Hrange].
  - by rewrite Hs1.
  - by rewrite Hs1.
  - rewrite Hh1. constructor.
Qed.

Lemma careful_step_inv s c fs now oid :
  ledger_inv s → careful_call s c fs →
  outcome (run (perform c) s fs now oid) = Ok tt →
  ledger_inv (final (run (perform c) s fs now oid))
  ∧ (¬ is_deposit c → Forall no_dangling (seen (run (perform c) s fs now oid))).
Proof.
  intros Hinv Hcall Hok. destruct c as [y t a|m y t a|y t a|ids|y t ids]; simpl in *.
  - apply Create_Ok in Hok as (Hnone & -> & ->).
    pose proof (inv_create y t a s Hnone Hinv) as Hinv'.
    split; [done|]. intros _. repeat constructor. apply Hinv'.
  - apply Submit_Ok in Hok as (Hfresh & -> & ->).
    pose proof (inv_insert_log (Log.mk oid m "unapproved" a now) s Hfresh Hinv) as Hinv1.
    assert (oid ∈ Log.ID <$> logs (with_logs s (logs s ++ [Log.mk oid m "unapproved" a now])))
      as Hin by (simpl; rewrite fmap_app; apply elem_of_app; right; left).
    pose proof (inv_push y t oid _ Hin Hinv1) as Hinv2.
    split; [done|]. intros _. repeat constructor; [apply Hinv1|apply Hinv2].
  - split; [|by intros []].
    apply (Deposit_Ok _ _ _ _ _ _ _ Hcall) in Hok as [[Hin ->]|[Hfresh ->]].
    + by apply inv_push.
    + pose proof (inv_insert_log (Log.mk oid "" "direct" a now) s Hfresh Hinv) as Hinv1.
      assert (oid ∈ Log.ID <$> logs (with_logs s (logs s ++ [Log.mk oid "" "direct" a now])))
        as Hin by (simpl; rewrite fmap_app; apply elem_of_app; right; left).
      apply (inv_push y t oid _ Hin Hinv1).
  - apply Approve_Ok in Hok as (-> & ->).
    pose proof (inv_approve ids now s Hinv) as Hinv'.
    split; [done|]. intros _. repeat constructor. apply Hinv'.
  - destruct (Reject_inv s y t ids fs now oid Hinv Hcall Hok). done.
Qed.

(** C9, as the code keeps it.  In every store reached from an empty
    ledger by runs that return no error of [Create], [Submit], [Approve],
    of [Reject] naming the term that lists the identifiers, and of
    [Deposit] whose insertion is not made to fail, every identifier on a
    roster names a stored log, (year, semester) identifies at most one term
    and log identifiers are unique.  From such a store, every store written
    during a further such run of [Create], [Submit], [Approve] or [Reject]
    that returns no error is free of dangling references as well: between
    the two writes of [Submit], and between the pull and the delete of
    every identifier of [Reject]. *)
Theorem careful_calls_keep_references s :
  reachable_by careful_call s →
  no_dangling s ∧ unique_term_keys s ∧ unique_log_ids s
  ∧ ∀ c fs now oid,
      careful_call s c fs → ¬ is_deposit c →
      outcome (run (perform c) s fs now oid) = Ok tt →
      Forall no_dangling (seen (run (perform c) s fs now oid)).
Proof.
  intros Hreach.
  assert (ledger_inv s) as Hinv.
  { induction Hreach as [s Hf Hl|s c fs now oid _ IH Hcall Hok].
    - by apply inv_empty.
    - by apply careful_step_inv. }
  destruct Hinv as (Hl & Hk & Hd). split_and!; [done..|].
  intros c fs now oid Hcall Hnd Hok.
  by apply (careful_step_inv s c fs now oid).
Qed.

Lemma ledger_rejected_reachable : reachable_by careful_call ledger_rejected.
Proof.
  unfold ledger_rejected, ledger_deposited, ledger_step3, ledger_step2, ledger_step1.
  apply reachable_step; [|simpl; by_decide|vm_compute; reflexivity].
  apply reachable_step; [|by left|vm_compute; reflexivity].
  repeat (apply reachable_step; [|exact I|vm_compute; reflexivity]).
  by apply reachable_empty.
Defined.

Lemma careful_calls_keep_references_witness :
  no_dangling ledger_rejected
  ∧ Forall no_dangling
      (seen (run (perform (CSubmit "M2" 2024 2 20000)) ledger_rejected [] 140 9%N)).
Proof.
  destruct (careful_calls_keep_references ledger_rejected ledger_rejected_reachable)
    as (Hd & _ & _ & Hmid).
  split; [exact Hd|].
  apply Hmid; [exact I|intros []|vm_compute; reflexivity].
Defined.

(** * Further properties *)

(** ** Reports under driver failures *)

Lemma first_failure_skip n fs i c :
  first_failure fs = Some (i, c) →
  first_failure (replicate n None ++ fs) = Some ((n + i)%nat, c).
Proof. intros Hfs. induction n as [|n IH]; simpl; [done|]. by rewrite IH. Qed.

Lemma calm_eq w w' :
  store w' = store w → clock w' = clock w → fresh w' = fresh w → hist w' = hist w →
  calm w' = calm w.
Proof. unfold calm. by intros -> -> -> ->. Qed.

Lemma reads_only_calm {A} (m : M A) w : reads_only m → (m (calm w)).2 = calm w.
Proof.
  intros Hm. destruct (Hm (calm w)) as (Hs & Hc & Hf & Hh & Hfs).
  destruct ((m (calm w)).2) as [s fs c o h]. simpl in *. subst.
  destruct Hfs as [(n & Hn & _)|(i & c' & Hc' & _)]; [|done].
  symmetry in Hn. apply app_eq_nil in Hn as [_ ->]. done.
Qed.

Lemma reads_only_ret {A} (a : A) : reads_only (ret a).
Proof. intros w. simpl. split_and!; [done..|]. left. by exists 0%nat. Qed.

Lemma reads_only_throw {A} e : reads_only (@throw A e).
Proof. intros w. simpl. split_and!; [done..|]. left. by exists 0%nat. Qed.

Lemma reads_only_get_store : reads_only get_store.
Proof. intros w. simpl. split_and!; [done..|]. left. by exists 0%nat. Qed.

Lemma reads_only_driver_call : reads_only driver_call.
Proof.
  intros [s [|[c|] fs] now oid h]; simpl; split_and!; try done.
  - left. by exists 0%nat.
  - right. by exists 0%nat, c.
  - left. by exists 1%nat.
Qed.

Lemma reads_only_bind {A B} (m : M A) (k : A → M B) :
  reads_only m → (∀ a, reads_only (k a)) → reads_only (bind m k).
Proof.
  intros Hm Hk w. pose proof (reads_only_calm m w Hm) as Hcalm.
  destruct (Hm w) as (Hs & Hc & Hf & Hh & Hfs). unfold bind.
  destruct (m (calm w)) as [r0 w0] eqn:E0. simpl in Hcalm. subst w0.
  destruct (m w) as [[a|e] w1] eqn:E1; simpl in *.
  - destruct (Hk a w1) as (Hs' & Hc' & Hf' & Hh' & Hfs').
    split_and!; [by rewrite Hs'|by rewrite Hc'|by rewrite Hf'|by rewrite Hh'|].
    destruct Hfs as [(n & Hn & <-)|(i & c & _ & ?)]; [|done].
    rewrite (calm_eq w w1) in Hfs' by done.
    destruct Hfs' as [(n' & Hn' & Hr)|(i & c & Hfault & Hr)].
    + left. exists (n + n')%nat. split; [|done].
      rewrite Hn, Hn' at 1. by rewrite replicate_add, <- app_assoc.
    + right. exists (n + i)%nat, c. split; [|done].
      rewrite Hn. by apply first_failure_skip.
  - split_and!; [done..|].
    destruct Hfs as [(n & Hn & <-)|(i & c & Hfault & Hr)].
    + left. exists n. split; [exact Hn|reflexivity].
    + right. exists i, c. split; [exact Hfault|]. by injection Hr as ->.
Qed.

Create HintDb reads.
#[local] Hint Resolve reads_only_ret reads_only_throw reads_only_get_store
  reads_only_driver_call reads_only_bind : reads.

Lemma fees_FindOne_reads year semester : reads_only (fees_FindOne year semester).
Proof.
  unfold fees_FindOne. apply reads_only_bind; [auto with reads|intros _].
  apply reads_only_bind; [auto with reads|intros s]. case_match; auto with reads.
Qed.

Lemma logs_Find_reads (P : Log.t → Prop) `{!∀ l, Decision (P l)} : reads_only (logs_Find P).
Proof. unfold logs_Find. auto with reads. Qed.

Lemma members_Find_reads arr : reads_only (members_Find arr).
Proof. unfold members_Find. auto with reads. Qed.

#[local] Hint Resolve fees_FindOne_reads logs_Find_reads members_Find_reads : reads.

Lemma Amount_reads year semester memberID : reads_only (Amount year semester memberID).
Proof. unfold Amount, Connect, Close, Disconnect. auto 12 with reads. Qed.

Lemma Dones_reads year semester : reads_only (Dones year semester).
Proof. unfold Dones, Connect, Close, Disconnect. auto 12 with reads. Qed.

Lemma Yets_reads year semester : reads_only (Yets year semester).
Proof. unfold Yets, Connect, Close, Disconnect. auto 12 with reads. Qed.

Lemma All_reads srt year semester : reads_only (All srt year semester).
Proof. unfold All, Connect, Close, Disconnect. auto 12 with reads. Qed.

Lemma reads_only_run {A} (m : M A) st fs now oid :
  reads_only m →
  final (run m st fs now oid) = st
  ∧ seen (run m st fs now oid) = []
  ∧ (outcome (run m st fs now oid) = outcome (run m st [] now oid)
     ∨ ∃ i c, first_failure fs = Some (i, c)
              ∧ outcome (run m st fs now oid) = Err (ErrDriver c)).
Proof.
  intros Hm. unfold final, seen, outcome, run.
  destruct (Hm (mkWorld st fs now oid [])) as (Hs & _ & _ & Hh & Hfs).
  split_and!; [done..|].
  destruct Hfs as [(n & _ & Hr)|Hc]; [left; exact Hr|by right].
Qed.

(** X1.  The four reports [Amount], [Dones], [Yets] and [All] never write:
    whatever the driver does, the store they end on is the store they
    started from and no write is recorded. *)
Theorem reports_never_write srt st year semester memberID fs now oid :
  (final (run (Amount year semester memberID) st fs now oid) = st
   ∧ seen (run (Amount year semester memberID) st fs now oid) = [])
  ∧ (final (run (Dones year semester) st fs now oid) = st
     ∧ seen (run (Dones year semester) st fs now oid) = [])
  ∧ (final (run (Yets year semester) st fs now oid) = st
     ∧ seen (run (Yets year semester) st fs now oid) = [])
  ∧ (final (run (All srt year semester) st fs now oid) = st
     ∧ seen (run (All srt year semester) st fs now oid) = []).
Proof.
  split_and!.
  all: first [ eapply reads_only_run, Amount_reads | eapply reads_only_run, Dones_reads
             | eapply reads_only_run, Yets_reads | eapply reads_only_run, All_reads ].
Qed.


(** ** Invariants under every fault plan *)

Section Keeps.
Context (I : Store → Prop).

Lemma keeps_ret {A} (a : A) : keeps I (ret a).
Proof. by intros w. Qed.

Lemma keeps_throw {A} e : keeps I (@throw A e).
Proof. by intros w. Qed.

Lemma keeps_driver_call : keeps I driver_call.
Proof. intros [s [|[c|] fs] now oid h]; simpl; done. Qed.

Lemma keeps_bind {A B} (m : M A) (k : A → M B) (Q : A → Prop) :
  keeps I m → (∀ w a w', m w = (Ok a, w') → Q a) → (∀ a, Q a → keeps I (k a)) →
  keeps I (bind m k).
Proof.
  intros Hm HQ Hk w Hs Hh. unfold bind.
  destruct (Hm w Hs Hh) as [Hs1 Hh1]. specialize (HQ w).
  destruct (m w) as [[a|e] w1]; simpl in *; [|done].
  apply Hk; eauto.
Qed.

Lemma keeps_seq {A B} (m : M A) (k : M B) :
  keeps I m → keeps I k → keeps I (m ;;; k).
Proof. intros Hm Hk. apply (keeps_bind m _ (λ _, True)); auto. Qed.

Lemma keeps_attempt {A} (m : M A) : keeps I m → keeps I (attempt m).
Proof.
  intros Hm w Hs Hh. unfold attempt. specialize (Hm w Hs Hh).
  by destruct (m w).
Qed.

Lemma keeps_discard {A} (m : M A) : keeps I m → keeps I (discard m).
Proof.
  intros Hm w Hs Hh. unfold discard. specialize (Hm w Hs Hh).
  by destruct (m w).
Qed.

Lemma keeps_write (g : Store → Store) :
  (∀ s, I s → I (g s)) →
  keeps I (driver_call ;;; s <- get_store ;; put_store (g s)).
Proof.
  intros Hg [s [|[c|] fs] now oid h] Hs Hh; simpl in *; [|done|].
  all: split; [auto|]; apply Forall_app; split; [done|]; repeat constructor; auto.
Qed.

Lemma logs_InsertOne_keeps l :
  (∀ s, I s → Log.ID l ∉ Log.ID <$> logs s → I (with_logs s (logs s ++ [l]))) →
  keeps I (logs_InsertOne l).
Proof.
  intros Hl [s [|[c|] fs] now oid h] Hs Hh; exec; [|done|].
  all: case_decide; cbn; [done|].
  all: split; [auto|]; apply Forall_app; split; [done|]; repeat constructor; auto.
Qed.

Lemma NewLog_value memberID typ amount w l w' :
  NewLog memberID typ amount w = (Ok l, w') →
  Log.MemberID l = memberID ∧ Log.Type_ l = typ ∧ Log.Amount l = amount.
Proof. exec. by intros [= <- _]. Qed.

Lemma NewLog_keeps memberID typ amount : keeps I (NewLog memberID typ amount).
Proof. by intros w. Qed.

Lemma Create_keeps year semester amount :
  survives_create I → keeps I (Create year semester amount).
Proof.
  intros Hc [s fs now oid h] Hs Hh. specialize (Hc year semester amount s Hs).
  unfold the_term in Hc.
  destruct (find_first (fee_key year semester) (fees s)) as [f|] eqn:E;
    faults_cases fs; exec; rewrite ?E; cbn; try done.
  all: split; [auto|]; apply Forall_app; split; [done|]; repeat constructor; auto.
Qed.

Lemma Submit_keeps memberID year semester amount :
  survives_insert I → survives_push I →
  keeps I (Submit memberID year semester amount).
Proof.
  intros Hi Hp. unfold Submit. apply keeps_seq; [apply keeps_driver_call|].
  eapply keeps_bind; [apply NewLog_keeps|apply NewLog_value|].
  intros l (_ & Hty & _). apply keeps_seq.
  { apply logs_InsertOne_keeps. intros s Hs. apply Hi; [done|]. by left. }
  apply keeps_seq; [|apply keeps_driver_call].
  apply (keeps_write (λ s, with_fees s _)). intros s. apply Hp.
Qed.

Lemma Deposit_keeps year semester amount :
  survives_insert I → survives_push I →
  keeps I (Deposit year semester amount).
Proof.
  intros Hi Hp. unfold Deposit. apply keeps_seq; [apply keeps_driver_call|].
  eapply keeps_bind; [apply NewLog_keeps|apply NewLog_value|].
  intros l (_ & Hty & _). apply keeps_seq.
  { apply (keeps_write (λ s, with_fees s _)). intros s. apply Hp. }
  apply keeps_seq; [|apply keeps_driver_call]. apply keeps_discard.
  apply logs_InsertOne_keeps. intros s Hs. apply Hi; [done|]. by right.
Qed.

Lemma Approve_keeps ids : survives_approve I → keeps I (Approve ids).
Proof.
  intros Ha. unfold Approve. apply keeps_seq; [apply keeps_driver_call|].
  apply (keeps_bind _ _ (λ _, True)); [by intros w|done|]. intros now _.
  apply keeps_seq; [|apply keeps_driver_call].
  apply (keeps_write (λ s, with_logs s (approved_at ids now <$> logs s))).
  intros s. apply Ha.
Qed.

Lemma Reject_range_keeps year semester ids :
  (∀ id s, id ∈ ids → I s → I (pulled year semester id s)) →
  (∀ id s, id ∈ ids → I s → I (deleted id s)) →
  keeps I (Reject_range year semester ids).
Proof.
  induction ids as [|id ids IH]; intros Hp Hd; simpl; [apply keeps_ret|].
  apply keeps_seq; [|apply keeps_seq].
  - apply (keeps_write (pulled year semester id)). intros s. apply Hp. left.
  - apply (keeps_write (deleted id)). intros s. apply Hd. left.
  - apply IH; intros x s Hx; [apply Hp|apply Hd]; by right.
Qed.

Lemma Reject_keeps year semester ids :
  (∀ id s, id ∈ ids → I s → I (pulled year semester id s)) →
  (∀ id s, id ∈ ids → I s → I (deleted id s)) →
  keeps I (Reject year semester ids).
Proof.
  intros Hp Hd. unfold Reject. apply keeps_seq; [apply keeps_driver_call|].
  apply keeps_seq; [by apply Reject_range_keeps|apply keeps_driver_call].
Qed.

Lemma perform_keeps c :
  survives_create I → survives_insert I → survives_push I →
  survives_pull I → survives_delete I → survives_approve I →
  keeps I (perform c).
Proof.
  intros Hc Hi Hpush Hpull Hdel Ha. destruct c; simpl;
    auto using Create_keeps, Submit_keeps, Deposit_keeps, Approve_keeps.
  apply Reject_keeps; intros; [apply Hpull|apply Hdel]; done.
Qed.

Lemma keeps_run {A} (m : M A) st fs now oid :
  keeps I m → I st →
  I (final (run m st fs now oid)) ∧ Forall I (seen (run m st fs now oid)).
Proof. intros Hm Hst. apply Hm; [done|constructor]. Qed.
End Keeps.

(** ** Keys on every store that ever exists *)

Lemma update_first_terms year semester (h : Fee.t → Fee.t) (fs : list Fee.t) :
  (∀ f, (Fee.Year (h f), Fee.Semester (h f), Fee.Amount (h f))
        = (Fee.Year f, Fee.Semester f, Fee.Amount f)) →
  (λ f, (Fee.Year f, Fee.Semester f, Fee.Amount f)) <$> update_first (fee_key year semester) h fs
  = (λ f, (Fee.Year f, Fee.Semester f, Fee.Amount f)) <$> fs.
Proof.
  intros Hh. induction fs as [|x fs IH]; simpl; [done|].
  destruct (decide (fee_key year semester x)); rewrite !fmap_cons; [by rewrite Hh|].
  by rewrite IH.
Qed.

Lemma delete_first_sublist {A} (P : A → Prop) `{!∀ x, Decision (P x)} (l : list A) :
  delete_first P l `sublist_of` l.
Proof.
  induction l as [|x l IH]; simpl; [done|].
  destruct (decide (P x)); [by apply sublist_cons|by apply sublist_skip].
Qed.

Lemma unique_keys_create year semester amount s :
  the_term year semester s = None → unique_term_keys s →
  unique_term_keys (with_fees s (fees s ++ [New year semester amount])).
Proof.
  intros Hnone%find_first_None Hk.
  unfold unique_term_keys. simpl. rewrite fmap_app. apply NoDup_app.
  split_and!; [done| |apply NoDup_singleton].
  intros k (f & -> & Hf)%list_elem_of_fmap Hk'%list_elem_of_singleton.
  rewrite Forall_forall in Hnone. apply (Hnone f Hf).
  unfold term_key in Hk'. simpl in Hk'. unfold fee_key. by simplify_eq.
Qed.

Lemma NoDup_fmap_same {A B} (f : A → B) (l : list A) x y :
  NoDup (f <$> l) → x ∈ l → y ∈ l → f x = f y → x = y.
Proof.
  induction l as [|a l IH]; [by intros _ ?%elem_of_nil|].
  rewrite fmap_cons, NoDup_cons, !elem_of_cons. intros [Ha Hl] [->|Hx] [->|Hy] Hf.
  - done.
  - destruct Ha. rewrite Hf. by apply list_elem_of_fmap_2.
  - destruct Ha. rewrite <- Hf. by apply list_elem_of_fmap_2.
  - auto.
Qed.

Lemma well_keyed_survives :
  survives_create well_keyed ∧ survives_insert well_keyed ∧ survives_push well_keyed
  ∧ survives_pull well_keyed ∧ survives_delete well_keyed
  ∧ survives_approve well_keyed.
Proof.
  split_and!.
  - intros y t a s (Hk & Hl & Hty) Hnone. split_and!; [|done..].
    by apply unique_keys_create.
  - intros l s (Hk & Hl & Hty) Hl' Hfresh. split_and!; [done| |].
    + unfold unique_log_ids. simpl. rewrite fmap_app. apply NoDup_app.
      split_and!; [done| |apply NoDup_singleton].
      intros x Hx ->%list_elem_of_singleton. done.
    + simpl. apply Forall_app. split; [done|]. apply Forall_singleton.
      unfold known_type. tauto.
  - intros y t id s (Hk & Hl & Hty). split_and!; [|done..].
    unfold unique_term_keys. simpl. by rewrite update_first_keys.
  - intros y t id s (Hk & Hl & Hty). split_and!; [|done..].
    unfold unique_term_keys. simpl. by rewrite update_first_keys.
  - intros id s (Hk & Hl & Hty). split_and!; [done| |].
    + unfold unique_log_ids. simpl. by apply delete_first_NoDup.
    + simpl. rewrite Forall_forall in Hty. apply Forall_forall.
      intros x Hx%elem_of_delete_first. auto.
  - intros ids now s (Hk & Hl & Hty). split_and!; [done| |].
    + unfold unique_log_ids. simpl. by rewrite approved_at_ids.
    + simpl. apply Forall_fmap. eapply Forall_impl; [done|].
      intros l Hl'. unfold approved_at, compose.
      destruct (decide (Log.ID l ∈ ids)); [|done].
      unfold known_type. simpl. tauto.
Qed.

Lemma well_keyed_keeps c : keeps well_keyed (perform c).
Proof.
  destruct well_keyed_survives as (? & ? & ? & ? & ? & ?). by apply perform_keeps.
Qed.

(** X3.  On every store that ever exists (an empty ledger, then every store
    written or left behind by any call under any fault plan, failed calls
    included) (year, semester) identifies at most one term, [_id] at most
    one log, and every log carries one of the three known types.  So the
    lookup by key answers with the only term of that key, and two stored
    logs with the same identifier are the same log. *)
Theorem keys_stay_unique s :
  ever_reached s →
  unique_term_keys s ∧ unique_log_ids s ∧ Forall known_type (logs s)
  ∧ (∀ year semester f, f ∈ fees s → fee_key year semester f →
       the_term year semester s = Some f)
  ∧ (∀ l l', l ∈ logs s → l' ∈ logs s → Log.ID l = Log.ID l' → l = l').
Proof.
  intros Hreach.
  assert (well_keyed s) as (Hk & Hl & Hty).
  { induction Hreach as [s Hf Hl|s c fs now oid s' _ IH Hs'].
    - unfold well_keyed, unique_term_keys, unique_log_ids. rewrite Hf, Hl.
      split_and!; constructor.
    - destruct (keeps_run well_keyed (perform c) s fs now oid (well_keyed_keeps c) IH)
        as [Hfin Hseen].
      destruct Hs' as [->|Hs']; [done|].
      rewrite Forall_forall in Hseen. auto. }
  split_and!; [done..| |].
  - intros y t f Hf Hkey. unfold the_term.
    destruct (find_first (fee_key y t) (fees s)) as [g|] eqn:E.
    + apply find_first_Some in E as [Hg Hkey'].
      f_equal. apply (NoDup_fmap_same term_key (fees s)); [done..|].
      unfold term_key. destruct Hkey as [-> ->], Hkey' as [-> ->]. done.
    + apply find_first_None in E. rewrite Forall_forall in E. by destruct (E f Hf).
  - intros l l'. by apply (NoDup_fmap_same Log.ID).
Qed.

Lemma keys_stay_unique_witness :
  unique_term_keys ledger_orphaned ∧ unique_log_ids ledger_orphaned
  ∧ the_term 2024 2 ledger_orphaned = Some (Fee.mk 2024 2 50000 []).
Proof.
  destruct (keys_stay_unique ledger_orphaned) as (Hk & Hl & _ & Hterm & _).
  { unfold ledger_orphaned, ledger_step2, ledger_step1.
    repeat (eapply ever_written; [|left; reflexivity]).
    by apply (ever_empty (mkStore [] [] [])). }
  split_and!; [done..|]. apply Hterm; [|done]. by_decide.
Defined.

(** ** Frames of the writing operations *)

Lemma elem_of_delete_first_other {A} (P : A → Prop) `{!∀ x, Decision (P x)} (l : list A) x :
  x ∈ l → ¬ P x → x ∈ delete_first P l.
Proof.
  intros Hx Hn. induction l as [|y l IH]; simpl; [done|].
  apply elem_of_cons in Hx as [->|Hx].
  - rewrite decide_False by done. left.
  - destruct (decide (P y)); [done|]. right. auto.
Qed.

(** X4.  No operation writes the collection of members: under every fault
    plan it is the same in every store written and in the store the run ends
    on. *)
Theorem members_are_never_written c st fs now oid :
  members (final (run (perform c) st fs now oid)) = members st
  ∧ Forall (λ s, members s = members st) (seen (run (perform c) st fs now oid)).
Proof.
  apply (keeps_run (λ s, members s = members st)); [|done].
  apply perform_keeps; repeat intro; done.
Qed.

Lemma Create_final st year semester amount fs now oid :
  final (run (Create year semester amount) st fs now oid) = st
  ∨ (the_term year semester st = None
     ∧ final (run (Create year semester amount) st fs now oid)
       = with_fees st (fees st ++ [New year semester amount])).
Proof.
  unfold the_term.
  destruct (find_first (fee_key year semester) (fees st)) as [f|] eqn:E;
    faults_cases fs; exec; rewrite ?E; cbn; first [by left|by right].
Qed.

Lemma Submit_final st memberID year semester amount fs now oid :
  let log := Log.mk oid memberID "unapproved" amount now in
  let s1 := with_logs st (logs st ++ [log]) in
  let s2 := with_fees s1 (update_first (fee_key year semester) (push_log oid) (fees st)) in
  final (run (Submit memberID year semester amount) st fs now oid) = st
  ∨ (oid ∉ Log.ID <$> logs st)
    ∧ (final (run (Submit memberID year semester amount) st fs now oid) = s1
       ∨ final (run (Submit memberID year semester amount) st fs now oid) = s2).
Proof.
  faults_cases fs; exec; repeat case_decide; cbn;
    first [by left|right; split; [done|]; first [by left|by right]].
Qed.

Lemma Deposit_final st year semester amount fs now oid :
  let log := Log.mk oid "" "direct" amount now in
  let s1 := with_fees st (update_first (fee_key year semester) (push_log oid) (fees st)) in
  let s2 := with_logs s1 (logs st ++ [log]) in
  final (run (Deposit year semester amount) st fs now oid) = st
  ∨ final (run (Deposit year semester amount) st fs now oid) = s1
  ∨ (oid ∉ Log.ID <$> logs st)
    ∧ final (run (Deposit year semester amount) st fs now oid) = s2.
Proof.
  faults_cases fs; exec; repeat case_decide; cbn;
    first [by left|by right; left|right; right; by split].
Qed.

(** X5.  Terms are never dropped or repriced.  Whatever the driver does,
    [Submit], [Deposit], [Approve] and [Reject] leave the (year, semester,
    amount) triples of the terms as they are, in order, in every store they
    write; [Create] leaves them as they are or adds its own triple at the
    end, and that only when no term had the key. *)
Theorem terms_are_never_dropped_or_repriced c st fs now oid :
  match c with
  | CCreate year semester amount =>
      terms_on_file (final (run (perform c) st fs now oid)) = terms_on_file st
      ∨ (¬ term_exists year semester st
         ∧ terms_on_file (final (run (perform c) st fs now oid))
           = terms_on_file st ++ [(year, semester, amount)])
  | _ =>
      terms_on_file (final (run (perform c) st fs now oid)) = terms_on_file st
      ∧ Forall (λ s, terms_on_file s = terms_on_file st)
               (seen (run (perform c) st fs now oid))
  end.
Proof.
  assert (survives_push (λ s, terms_on_file s = terms_on_file st)) as Hpush.
  { intros y t id s Hs. rewrite <- Hs. unfold terms_on_file. simpl.
    by apply update_first_terms. }
  destruct c as [y t a|m y t a|y t a|ids|y t ids]; cbn [perform].
  - destruct (Create_final st y t a fs now oid) as [->|[Hnone ->]]; [by left|].
    right. split; [by apply no_term_the_term|].
    unfold terms_on_file. simpl. by rewrite fmap_app.
  - apply (keeps_run (λ s, terms_on_file s = terms_on_file st)); [|done].
    apply Submit_keeps; [|done]. by intros l s Hs _ _.
  - apply (keeps_run (λ s, terms_on_file s = terms_on_file st)); [|done].
    apply Deposit_keeps; [|done]. by intros l s Hs _ _.
  - apply (keeps_run (λ s, terms_on_file s = terms_on_file st)); [|done].
    apply Approve_keeps. by intros ? ? s Hs.
  - apply (keeps_run (λ s, terms_on_file s = terms_on_file st)); [|done].
    apply Reject_keeps; [|by intros id s _ Hs].
    intros id s _ Hs. rewrite <- Hs. unfold terms_on_file. simpl.
    by apply update_first_terms.
Qed.

(** X6.  What a writing operation may do to the collection of logs, whatever
    the driver does: [Create] nothing; [Submit] and [Deposit] nothing, or
    append their one new log under a fresh identifier; [Approve] nothing, or
    its update; [Reject] only removes logs and never one whose identifier is
    not among [ids]. *)
Theorem logs_change_only_as_named c st fs now oid :
  match c with
  | CCreate _ _ _ =>
      logs (final (run (perform c) st fs now oid)) = logs st
  | CSubmit memberID _ _ amount =>
      logs (final (run (perform c) st fs now oid)) = logs st
      ∨ (oid ∉ Log.ID <$> logs st)
        ∧ logs (final (run (perform c) st fs now oid))
          = logs st ++ [Log.mk oid memberID "unapproved" amount now]
  | CDeposit _ _ amount =>
      logs (final (run (perform c) st fs now oid)) = logs st
      ∨ (oid ∉ Log.ID <$> logs st)
        ∧ logs (final (run (perform c) st fs now oid))
          = logs st ++ [Log.mk oid "" "direct" amount now]
  | CApprove ids =>
      logs (final (run (perform c) st fs now oid)) = logs st
      ∨ logs (final (run (perform c) st fs now oid)) = approved_at ids now <$> logs st
  | CReject _ _ ids =>
      logs (final (run (perform c) st fs now oid)) `sublist_of` logs st
      ∧ ∀ l, l ∈ logs st → Log.ID l ∉ ids →
             l ∈ logs (final (run (perform c) st fs now oid))
  end.
Proof.
  destruct c as [y t a|m y t a|y t a|ids|y t ids]; cbn [perform].
  - by destruct (Create_final st y t a fs now oid) as [->|[_ ->]].
  - destruct (Submit_final st m y t a fs now oid) as [->|[Hfresh [->| ->]]];
      [by left|by right..].
  - destruct (Deposit_final st y t a fs now oid) as [->|[->|[Hfresh ->]]];
      [by left|by left|by right].
  - destruct (Approve_final st ids fs now oid) as [->| ->]; [by left|by right].
  - apply (keeps_run (λ s, logs s `sublist_of` logs st
                           ∧ ∀ l, l ∈ logs st → Log.ID l ∉ ids → l ∈ logs s)); [|done].
    apply Reject_keeps.
    + by intros id s _ Hs.
    + intros id s Hid [Hsub Hkeep]. simpl. split.
      * etrans; [apply delete_first_sublist|done].
      * intros l Hl Hne. apply elem_of_delete_first_other; [auto|].
        unfold has_id. intros Heq. apply Hne. by rewrite Heq.
Qed.

(** ** Runs cut short *)

Lemma default_last_cons {A} (a d : A) (l : list A) :
  default a (last (d :: l)) = default d (last l).
Proof.
  revert a d. induction l as [|x l IH]; intros a d; [done|].
  change (last (d :: x :: l)) with (last (x :: l)). by rewrite (IH a x), (IH d x).
Qed.

Lemma last_reject_trace year semester ids s :
  default s (last (reject_trace year semester ids s)) = rejected year semester ids s.
Proof.
  revert s. induction ids as [|id ids IH]; intros s; simpl; [done|].
  rewrite <- IH. apply default_last_cons.
Qed.

Lemma write_cases (g : Store → Store) w :
  (∃ c w', (driver_call ;;; s <- get_store ;; put_store (g s)) w = (Err (ErrDriver c), w')
           ∧ store w' = store w ∧ hist w' = hist w)
  ∨ (∃ w', (driver_call ;;; s <- get_store ;; put_store (g s)) w = (Ok tt, w')
           ∧ store w' = g (store w) ∧ hist w' = hist w ++ [g (store w)]
           ∧ (faults w = [] → faults w' = [])).
Proof.
  destruct w as [s [|[c|] fs] now oid h]; exec.
  - right. eexists. done.
  - left. eexists _, _. done.
  - right. eexists. done.
Qed.

Lemma bind_eq_Ok {A B} (m : M A) (k : A → M B) w a w' :
  m w = (Ok a, w') → bind m k w = k a w'.
Proof. unfold bind. by intros ->. Qed.

Lemma bind_eq_Err {A B} (m : M A) (k : A → M B) w e w' :
  m w = (Err e, w') → bind m k w = (Err e, w').
Proof. unfold bind. by intros ->. Qed.

Lemma pull_cases year semester id w :
  (∃ c w', fees_UpdateOne_pull year semester id w = (Err (ErrDriver c), w')
           ∧ store w' = store w ∧ hist w' = hist w)
  ∨ (∃ w', fees_UpdateOne_pull year semester id w = (Ok tt, w')
           ∧ store w' = pulled year semester id (store w)
           ∧ hist w' = hist w ++ [pulled year semester id (store w)]
           ∧ (faults w = [] → faults w' = [])).
Proof. exact (write_cases (pulled year semester id) w). Qed.

Lemma delete_cases id w :
  (∃ c w', logs_DeleteOne id w = (Err (ErrDriver c), w')
           ∧ store w' = store w ∧ hist w' = hist w)
  ∨ (∃ w', logs_DeleteOne id w = (Ok tt, w')
           ∧ store w' = deleted id (store w)
           ∧ hist w' = hist w ++ [deleted id (store w)]
           ∧ (faults w = [] → faults w' = [])).
Proof. exact (write_cases (deleted id) w). Qed.

Lemma Reject_range_cut year semester ids w :
  ∃ tr, tr `prefix_of` reject_trace year semester ids (store w)
        ∧ hist (Reject_range year semester ids w).2 = hist w ++ tr
        ∧ store (Reject_range year semester ids w).2 = default (store w) (last tr)
        ∧ (faults w = [] → faults (Reject_range year semester ids w).2 = []
                           ∧ (Reject_range year semester ids w).1 = Ok tt)
        ∧ ((Reject_range year semester ids w).1 = Ok tt →
           tr = reject_trace year semester ids (store w)).
Proof.
  revert w. induction ids as [|id ids IH]; intros w.
  - exists []. simpl. rewrite app_nil_r. done.
  - cbn [Reject_range reject_trace].
    destruct (pull_cases year semester id w)
      as [(c & w1 & E1 & Hs1 & Hh1)|(w1 & E1 & Hs1 & Hh1 & Hf1)].
    { exists []. rewrite (bind_eq_Err _ _ _ _ _ E1). cbn. rewrite app_nil_r.
      split_and!; [apply prefix_nil|done..| |done].
      intros Hw. destruct w as [s fs ? ? ?]. simpl in Hw. subst fs. by exec. }
    rewrite (bind_eq_Ok _ _ _ _ _ E1).
    destruct (delete_cases id w1)
      as [(c & w2 & E2 & Hs2 & Hh2)|(w2 & E2 & Hs2 & Hh2 & Hf2)].
    { exists [pulled year semester id (store w)].
      rewrite (bind_eq_Err _ _ _ _ _ E2). cbn. rewrite Hs2, Hh2, Hs1, Hh1.
      split_and!; [by apply prefix_cons, prefix_nil|done..| |done].
      intros Hw. specialize (Hf1 Hw).
      destruct w1 as [s1 fs1 ? ? ?]. simpl in Hf1. subst fs1. by exec. }
    rewrite (bind_eq_Ok _ _ _ _ _ E2).
    destruct (IH w2) as (tr & Hpre & Hh & Hs & Hcalm & Hok).
    exists (pulled year semester id (store w)
            :: deleted id (pulled year semester id (store w)) :: tr).
    rewrite Hh, Hs, Hh2, Hs2, Hh1, Hs1 in *.
    split_and!.
    + by do 2 apply prefix_cons.
    + by rewrite <- !app_assoc.
    + by rewrite !default_last_cons.
    + intros Hw. apply Hcalm. auto.
    + intros Hr. by rewrite (Hok Hr).
Qed.

Lemma driver_call_keeps_store w :
  store (driver_call w).2 = store w ∧ hist (driver_call w).2 = hist w.
Proof. by destruct w as [s [|[c|] fs] now oid h]. Qed.

Lemma Reject_run_cut st year semester ids fs now oid :
  seen (run (Reject year semester ids) st fs now oid)
    `prefix_of` reject_trace year semester ids st
  ∧ final (run (Reject year semester ids) st fs now oid)
    = default st (last (seen (run (Reject year semester ids) st fs now oid)))
  ∧ (outcome (run (Reject year semester ids) st fs now oid) = Ok tt →
     seen (run (Reject year semester ids) st fs now oid)
     = reject_trace year semester ids st).
Proof.
  remember (run (Reject year semester ids) st fs now oid) as r eqn:Hr.
  unfold run, Reject, Connect, Disconnect in Hr.
  destruct fs as [|[c|] fs1]; unfold bind at 1 in Hr; unfold driver_call at 1 in Hr;
    cbn [faults store clock fresh hist] in Hr.
  2:{ subst r. unfold seen, final. simpl. split_and!; [apply prefix_nil|done..]. }
  all: unfold bind in Hr.
  all: match type of Hr with
       | context [Reject_range _ _ _ ?w] =>
           destruct (Reject_range_cut year semester ids w)
             as (tr & Hpre & Hh & Hs & _ & Hok);
           destruct (Reject_range year semester ids w) as [[[]|e] w2]
       end; simpl in *.
  all: subst r; unfold seen, final, outcome; simpl.
  all: try (destruct (driver_call_keeps_store w2) as [-> ->]).
  all: rewrite Hh, Hs.
  all: split_and!; [done|done|].
  all: intros Hr; try discriminate.
  all: by rewrite Hok.
Qed.

Lemma Create_cut st year semester amount fs now oid :
  seen (run (Create year semester amount) st fs now oid)
    `prefix_of` seen (run (Create year semester amount) st [] now oid)
  ∧ final (run (Create year semester amount) st fs now oid)
    = default st (last (seen (run (Create year semester amount) st fs now oid))).
Proof.
  destruct (find_first (fee_key year semester) (fees st)) as [f|] eqn:E;
    faults_cases fs; exec; rewrite ?E; cbn; split; first [done|apply prefix_nil].
Qed.

Lemma Submit_cut st memberID year semester amount fs now oid :
  seen (run (Submit memberID year semester amount) st fs now oid)
    `prefix_of` seen (run (Submit memberID year semester amount) st [] now oid)
  ∧ final (run (Submit memberID year semester amount) st fs now oid)
    = default st (last (seen (run (Submit memberID year semester amount) st fs now oid))).
Proof.
  faults_cases fs; exec; repeat case_decide; cbn; split;
    first [done|apply prefix_nil|by apply prefix_cons, prefix_nil].
Qed.

Lemma Deposit_cut st year semester amount fs now oid :
  seen (run (Deposit year semester amount) st fs now oid)
    `prefix_of` seen (run (Deposit year semester amount) st [] now oid)
  ∧ final (run (Deposit year semester amount) st fs now oid)
    = default st (last (seen (run (Deposit year semester amount) st fs now oid))).
Proof.
  faults_cases fs; exec; repeat case_decide; cbn; split;
    first [done|apply prefix_nil|by apply prefix_cons, prefix_nil].
Qed.

Lemma Approve_cut st ids fs now oid :
  seen (run (Approve ids) st fs now oid)
    `prefix_of` seen (run (Approve ids) st [] now oid)
  ∧ final (run (Approve ids) st fs now oid)
    = default st (last (seen (run (Approve ids) st fs now oid))).
Proof.
  faults_cases fs; exec; split; first [done|apply prefix_nil].
Qed.

(** X7.  A driver failure only cuts a writing operation short: under every
    fault plan the stores written are a prefix of the stores the run without
    failures writes, and the run ends on the last store it wrote (on the
    store it started from if it wrote none). *)
Theorem faults_only_cut_short c st fs now oid :
  seen (run (perform c) st fs now oid) `prefix_of` seen (run (perform c) st [] now oid)
  ∧ final (run (perform c) st fs now oid)
    = default st (last (seen (run (perform c) st fs now oid))).
Proof.
  destruct c as [y t a|m y t a|y t a|ids|y t ids]; cbn [perform].
  - apply Create_cut.
  - apply Submit_cut.
  - apply Deposit_cut.
  - apply Approve_cut.
  - destruct (Reject_run_cut st y t ids fs now oid) as (Hpre & Hfin & _).
    destruct (Reject_run_cut st y t ids [] now oid) as (_ & _ & Hcalm).
    split; [|done]. rewrite Hcalm; [done|]. apply Reject_quiet.
Qed.

(** X8.  When [Create], [Submit], [Approve] or [Reject] returns nil, every
    write was made: the run wrote the same stores and ended on the same
    store as the run without failures, which returns nil as well.
    ([Deposit] is the exception, it ignores the error of its insertion.) *)
Theorem nil_return_means_all_written c st fs now oid :
  ¬ is_deposit c →
  outcome (run (perform c) st fs now oid) = Ok tt →
  outcome (run (perform c) st [] now oid) = Ok tt
  ∧ final (run (perform c) st fs now oid) = final (run (perform c) st [] now oid)
  ∧ seen (run (perform c) st fs now oid) = seen (run (perform c) st [] now oid).
Proof.
  intros Hdep Hok. destruct c as [y t a|m y t a|y t a|ids|y t ids]; cbn [perform] in *.
  - apply Create_Ok in Hok as (Hnone & -> & ->). exec. by rewrite Hnone.
  - apply Submit_Ok in Hok as (Hfresh & -> & ->). exec. by rewrite decide_False.
  - by destruct Hdep.
  - by apply Approve_Ok in Hok as (-> & ->).
  - split; [apply Reject_quiet|].
    destruct (Reject_run_cut st y t ids fs now oid) as (_ & Hf1 & Hs1).
    destruct (Reject_run_cut st y t ids [] now oid) as (_ & Hf2 & Hs2).
    rewrite Hf1, Hf2, (Hs1 Hok), (Hs2 (Reject_quiet st y t ids now oid)). done.
Qed.

Lemma nil_return_means_all_written_witness :
  final (run (Submit "M1" 2024 1 30000) ledger_step2 [None; None; None; None; Some 9%N] 120 7%N)
  = final (run (Submit "M1" 2024 1 30000) ledger_step2 [] 120 7%N).
Proof.
  apply (nil_return_means_all_written (CSubmit "M1" 2024 1 30000) ledger_step2
           [None; None; None; None; Some 9%N] 120 7%N); [by intros []|].
  vm_compute. reflexivity.
Defined.

(** ** The writing operations under every fault plan *)

(** X9.  [Submit] under every fault plan.  With a fresh identifier: a
    failure of Connect or of the insertion is returned and the store is left
    alone; a failure of the push is returned and leaves the log stored but
    listed on no roster; a failure of Disconnect is returned although log
    and roster entry are written; without failure among the four calls the
    result is nil.  With an identifier that is taken the insertion is
    refused with the duplicate-key error and nothing is written. *)
Theorem Submit_under_faults st memberID year semester amount fs now oid :
  (oid ∉ Log.ID <$> logs st →
   verdict (run (Submit memberID year semester amount) st fs now oid)
   = match first_failure fs with
     | Some (0%nat, c) | Some (1%nat, c) => (Err (ErrDriver c), st)
     | Some (2%nat, c) => (Err (ErrDriver c), filed memberID amount now oid st)
     | Some (3%nat, c) =>
         (Err (ErrDriver c), listed year semester oid (filed memberID amount now oid st))
     | _ => (Ok tt, listed year semester oid (filed memberID amount now oid st))
     end)
  ∧ (oid ∈ Log.ID <$> logs st →
     verdict (run (Submit memberID year semester amount) st fs now oid)
     = match first_failure fs with
       | Some (0%nat, c) | Some (1%nat, c) => (Err (ErrDriver c), st)
       | _ => (Err (ErrDriver DuplicateKey), st)
       end).
Proof.
  split; intros Hoid.
  all: faults_cases fs; unfold verdict; exec; repeat case_decide; try done.
  all: late_fault.
Qed.

Lemma Submit_under_faults_witness :
  verdict (run (Submit "M1" 2024 1 30000) ledger_step2 [None; None; Some 5%N] 120 7%N)
  = (Err (ErrDriver 5%N), filed "M1" 30000 120 7%N ledger_step2).
Proof.
  apply (proj1 (Submit_under_faults ledger_step2 "M1" 2024 1 30000
                  [None; None; Some 5%N] 120 7%N)).
  by_decide.
Defined.

(** X10.  [Approve] under every fault plan: a failure of Connect or of the
    update is returned and the store is left alone; a failure of Disconnect
    is returned although the update is made; without failure among the three
    calls the result is nil. *)
Theorem Approve_under_faults st ids fs now oid :
  verdict (run (Approve ids) st fs now oid)
  = match first_failure fs with
    | Some (0%nat, c) | Some (1%nat, c) => (Err (ErrDriver c), st)
    | Some (2%nat, c) => (Err (ErrDriver c), approved_store ids now st)
    | _ => (Ok tt, approved_store ids now st)
    end.
Proof.
  faults_cases fs; unfold verdict; exec; try done. late_fault.
Qed.

(** X11.  [Create] under every fault plan.  A failure of Connect is
    returned.  After a failed lookup, and after a lookup that found a term,
    [Create] disconnects and returns [ErrDuplicatedFee], or the failure of
    Disconnect if that fails too; nothing is written.  After a lookup that
    found nothing, a failure of the insertion is returned and nothing is
    written; a failure of Disconnect is returned although the term is
    written; without failure the result is nil. *)
Theorem Create_under_faults st year semester amount fs now oid :
  let refused :=
    (match fails_at fs 2 with
     | Some d => Err (ErrDriver d)
     | None => Err ErrDuplicatedFee
     end, st) in
  verdict (run (Create year semester amount) st fs now oid)
  = match fails_at fs 0, fails_at fs 1, the_term year semester st with
    | Some c, _, _ => (Err (ErrDriver c), st)
    | None, Some _, _ => refused
    | None, None, Some _ => refused
    | None, None, None =>
        match fails_at fs 2, fails_at fs 3 with
        | Some c, _ => (Err (ErrDriver c), st)
        | None, Some c =>
            (Err (ErrDriver c), with_fees st (fees st ++ [New year semester amount]))
        | None, None =>
            (Ok tt, with_fees st (fees st ++ [New year semester amount]))
        end
    end.
Proof.
  unfold the_term, verdict.
  destruct (find_first (fee_key year semester) (fees st)) as [f|] eqn:E;
    faults_cases fs; exec; rewrite ?E; done.
Qed.

(** X12.  [Deposit] under every fault plan.  A failure of Connect or of the
    push is returned and the store is left alone.  Past the push the
    identifier is on the roster; the log is stored unless the insertion
    fails or the identifier is taken, and neither shows in the result, which
    is the failure of Disconnect, or nil. *)
Theorem Deposit_under_faults st year semester amount fs now oid :
  verdict (run (Deposit year semester amount) st fs now oid)
  = match fails_at fs 0, fails_at fs 1 with
    | Some c, _ => (Err (ErrDriver c), st)
    | None, Some c => (Err (ErrDriver c), st)
    | None, None =>
        (match fails_at fs 3 with
         | Some c => Err (ErrDriver c)
         | None => Ok tt
         end,
         match fails_at fs 2 with
         | Some _ => listed year semester oid st
         | None =>
             if decide (oid ∈ Log.ID <$> logs st)
             then listed year semester oid st
             else banked amount now oid (listed year semester oid st)
         end)
    end.
Proof.
  unfold verdict. faults_cases fs; exec; repeat case_decide; done.
Qed.

(** ** How the operations compose *)

Lemma filter_ext_in {A} (P Q : A → Prop) `{!∀ x, Decision (P x)} `{!∀ x, Decision (Q x)}
    (l : list A) :
  (∀ x, x ∈ l → (P x ↔ Q x)) → filter P l = filter Q l.
Proof.
  induction l as [|x l IH]; intros Hl; [done|].
  rewrite !filter_cons, IH by (intros y Hy; apply Hl; by right).
  destruct (decide (P x)) as [Hp|Hp], (decide (Q x)) as [Hq|Hq]; try done.
  - destruct Hq. apply Hl; [left|done].
  - destruct Hp. apply Hl; [left|done].
Qed.

Lemma filter_none {A} (P : A → Prop) `{!∀ x, Decision (P x)} (l : list A) :
  (∀ x, x ∈ l → ¬ P x) → filter P l = [].
Proof.
  induction l as [|x l IH]; intros Hl; [done|].
  rewrite filter_cons_False by (apply Hl; left). apply IH. intros y Hy. apply Hl. by right.
Qed.

Lemma filter_all {A} (P : A → Prop) `{!∀ x, Decision (P x)} (l : list A) :
  (∀ x, x ∈ l → P x) → filter P l = l.
Proof.
  induction l as [|x l IH]; intros Hl; [done|].
  rewrite filter_cons_True by (apply Hl; left). f_equal. apply IH. intros y Hy. apply Hl. by right.
Qed.

Section FirstMatchMore.
Context {A : Type} (P : A → Prop) `{!∀ x, Decision (P x)}.

Lemma update_first_fixed (h : A → A) (l : list A) :
  (∀ x, find_first P l = Some x → h x = x) → update_first P h l = l.
Proof.
  induction l as [|x l IH]; simpl; [done|]. rewrite find_first_cons.
  destruct (decide (P x)); intros Hx; [by rewrite Hx|]. by rewrite IH.
Qed.

Lemma update_first_twice (h1 h2 : A → A) (l : list A) :
  (∀ x, P x → P (h1 x)) →
  update_first P h2 (update_first P h1 l) = update_first P (h2 ∘ h1) l.
Proof.
  intros Hh. induction l as [|x l IH]; simpl; [done|].
  destruct (decide (P x)) as [Hx|Hx]; simpl.
  - by rewrite decide_True by auto.
  - rewrite decide_False by done. by rewrite IH.
Qed.

Lemma find_first_update_other (Q : A → Prop) `{!∀ x, Decision (Q x)} (h : A → A) (l : list A) :
  (∀ x, P x → ¬ Q x ∧ ¬ Q (h x)) →
  find_first Q (update_first P h l) = find_first Q l.
Proof.
  intros Hh. induction l as [|x l IH]; simpl; [done|].
  destruct (decide (P x)) as [Hx|Hx]; rewrite !find_first_cons.
  - destruct (Hh x Hx). by rewrite !decide_False by done.
  - by rewrite IH.
Qed.

Lemma find_first_app_new (l : list A) x :
  find_first P l = None → P x → find_first P (l ++ [x]) = Some x.
Proof.
  intros Hl Hx. unfold find_first in *. rewrite filter_app.
  destruct (filter P l); [|done]. simpl. by rewrite filter_cons_True.
Qed.

Lemma find_first_app_old (l : list A) x y :
  find_first P l = Some y → find_first P (l ++ [x]) = Some y.
Proof.
  intros Hl. unfold find_first in *. rewrite filter_app.
  by destruct (filter P l).
Qed.

Lemma delete_first_app_new (l : list A) x :
  (∀ y, y ∈ l → ¬ P y) → P x → delete_first P (l ++ [x]) = l.
Proof.
  intros Hl Hx. induction l as [|y l IH]; simpl.
  - by rewrite decide_True.
  - rewrite decide_False by (apply Hl; left). f_equal. apply IH.
    intros z Hz. apply Hl. by right.
Qed.
End FirstMatchMore.

Lemma fresh_has_no_log oid (ls : list Log.t) :
  oid ∉ Log.ID <$> ls → ∀ l, l ∈ ls → ¬ has_id oid l.
Proof.
  intros Hfresh l Hl Hid. apply Hfresh. unfold has_id in Hid. rewrite <- Hid.
  by apply list_elem_of_fmap_2.
Qed.

Lemma pull_push_log oid f : oid ∉ Fee.Logs f → pull_log oid (push_log oid f) = f.
Proof.
  intros Hf. destruct f as [y t a ls]. unfold pull_log, push_log. simpl in *. f_equal.
  rewrite filter_app, filter_cons_False, filter_nil, app_nil_r by (intros H; by apply H).
  apply filter_all. intros x Hx ->. done.
Qed.

Lemma the_term_listed year semester oid s :
  the_term year semester (listed year semester oid s)
  = push_log oid <$> the_term year semester s.
Proof.
  unfold the_term. simpl.
  destruct (find_first (fee_key year semester) (fees s)) as [f|] eqn:Hf; simpl.
  - apply find_first_update_first; [|done]. by intros [] [].
  - apply find_first_None in Hf. rewrite update_first_none by done.
    by apply find_first_None.
Qed.

Lemma the_term_listed_other year semester oid s year' semester' :
  (year', semester') ≠ (year, semester) →
  the_term year' semester' (listed year semester oid s) = the_term year' semester' s.
Proof.
  intros Hne. unfold the_term. simpl. apply find_first_update_other.
  intros [y t a ls] [Hy Ht]. simpl in *. subst.
  split; intros [Hy' Ht']; simpl in *; by subst.
Qed.

Lemma listed_missing year semester oid s :
  the_term year semester s = None → listed year semester oid s = s.
Proof.
  unfold the_term, listed. intros Hnone%find_first_None.
  rewrite update_first_none by done. by destruct s.
Qed.

(** X13.  With a fresh identifier and no driver failure, [Submit] and
    [Deposit] return nil, append their log to the collection and the
    identifier to the roster of the term the key selects; the lookup of
    every other key answers as before.  When no term has the key the log is
    stored all the same and no roster lists it. *)
Theorem new_log_lands_on_the_named_term st memberID year semester amount now oid :
  oid ∉ Log.ID <$> logs st →
  let submitted := final (run (Submit memberID year semester amount) st [] now oid) in
  let deposited := final (run (Deposit year semester amount) st [] now oid) in
  (outcome (run (Submit memberID year semester amount) st [] now oid) = Ok tt
   ∧ outcome (run (Deposit year semester amount) st [] now oid) = Ok tt)
  ∧ (logs submitted = logs st ++ [Log.mk oid memberID "unapproved" amount now]
     ∧ logs deposited = logs st ++ [Log.mk oid "" "direct" amount now])
  ∧ (the_term year semester submitted = push_log oid <$> the_term year semester st
     ∧ the_term year semester deposited = push_log oid <$> the_term year semester st)
  ∧ (∀ year' semester', (year', semester') ≠ (year, semester) →
       the_term year' semester' submitted = the_term year' semester' st
       ∧ the_term year' semester' deposited = the_term year' semester' st)
  ∧ (¬ term_exists year semester st →
       fees submitted = fees st ∧ fees deposited = fees st).
Proof.
  intros Hfresh submitted deposited.
  assert (submitted = listed year semester oid (filed memberID amount now oid st)) as Hs.
  { unfold submitted. exec. by rewrite decide_False. }
  assert (deposited = banked amount now oid (listed year semester oid st)) as Hd.
  { unfold deposited. exec. by rewrite decide_False. }
  split_and!.
  - exec. by rewrite decide_False.
  - exec. by rewrite decide_False.
  - by rewrite Hs.
  - by rewrite Hd.
  - rewrite Hs.
    exact (the_term_listed year semester oid (filed memberID amount now oid st)).
  - rewrite Hd. exact (the_term_listed year semester oid st).
  - intros y' t' Hne. rewrite Hs, Hd. split.
    + exact (the_term_listed_other year semester oid
               (filed memberID amount now oid st) y' t' Hne).
    + exact (the_term_listed_other year semester oid st y' t' Hne).
  - intros Hno%no_term_the_term. rewrite Hs, Hd. unfold the_term in Hno. simpl.
    apply find_first_None in Hno. by rewrite update_first_none.
Qed.

Lemma new_log_lands_on_the_named_term_witness :
  the_term 2024 1 (final (run (Submit "M1" 2024 1 30000) ledger_step2 [] 120 7%N))
  = Some (Fee.mk 2024 1 50000 [7%N])
  ∧ the_term 2024 2 (final (run (Submit "M1" 2024 1 30000) ledger_step2 [] 120 7%N))
    = Some (Fee.mk 2024 2 50000 []).
Proof.
  destruct (new_log_lands_on_the_named_term ledger_step2 "M1" 2024 1 30000 120 7%N)
    as (_ & _ & [Hsame _] & Hother & _); [by_decide|].
  split; [exact Hsame|]. by apply (Hother 2024 2).
Defined.

(** X14.  [Reject] of the new identifier under the same key undoes a
    [Submit] and a [Deposit]: the store is again the one before the
    submission, provided the identifier was on neither the collection of
    logs nor the roster before. *)
Theorem Reject_undoes_Submit_and_Deposit st memberID year semester amount now oid now' oid' :
  oid ∉ Log.ID <$> logs st →
  (∀ f, the_term year semester st = Some f → oid ∉ Fee.Logs f) →
  final (run (Reject year semester [oid])
           (final (run (Submit memberID year semester amount) st [] now oid)) [] now' oid')
  = st
  ∧ final (run (Reject year semester [oid])
             (final (run (Deposit year semester amount) st [] now oid)) [] now' oid')
    = st.
Proof.
  intros Hfresh Hroster.
  assert (update_first (fee_key year semester) (pull_log oid)
            (update_first (fee_key year semester) (push_log oid) (fees st)) = fees st) as Hfees.
  { rewrite update_first_twice by (by intros [] []).
    apply update_first_fixed. intros f Hf. simpl. apply pull_push_log. by apply Hroster. }
  split.
  - rewrite (Reject_Ok _ _ _ _ _ _ _ (Reject_quiet _ _ _ _ _ _)).
    exec. rewrite decide_False by done. cbn.
    unfold deleted, pulled, with_logs, with_fees. simpl.
    rewrite Hfees, delete_first_app_new; [by destruct st|by apply fresh_has_no_log|done].
  - rewrite (Reject_Ok _ _ _ _ _ _ _ (Reject_quiet _ _ _ _ _ _)).
    exec. rewrite decide_False by done. cbn.
    unfold deleted, pulled, with_logs, with_fees. simpl.
    rewrite Hfees, delete_first_app_new; [by destruct st|by apply fresh_has_no_log|done].
Qed.

Lemma Reject_undoes_Submit_and_Deposit_witness :
  final (run (Reject 2024 1 [7%N])
           (final (run (Submit "M1" 2024 1 30000) ledger_step2 [] 120 7%N)) [] 130 0%N)
  = ledger_step2.
Proof.
  apply (Reject_undoes_Submit_and_Deposit ledger_step2 "M1" 2024 1 30000 120 7%N 130 0%N).
  - by_decide.
  - intros f Hf. vm_compute in Hf. injection Hf as <-. by_decide.
Defined.

Lemma Amount_quiet st year semester memberID now oid f :
  the_term year semester st = Some f →
  run (Amount year semester memberID) st [] now oid
  = (Ok (int_sum (Log.Amount <$> approved_of memberID st)), mkWorld st [] now oid []).
Proof.
  unfold the_term. intros Hf. exec. rewrite Hf. cbn. by rewrite fold_left_amounts.
Qed.

Lemma int_sum_snoc l a : int_sum (l ++ [a]) = int_add (int_sum l) a.
Proof. unfold int_sum. by rewrite fold_left_app. Qed.

Lemma approved_at_fresh oid now (ls : list Log.t) :
  oid ∉ Log.ID <$> ls → approved_at [oid] now <$> ls = ls.
Proof.
  induction ls as [|l ls IH]; [done|].
  rewrite !fmap_cons. intros [Hl Hls]%not_elem_of_cons.
  rewrite (IH Hls). f_equal. unfold approved_at.
  rewrite decide_False; [done|]. intros Heq%list_elem_of_singleton. congruence.
Qed.

Lemma term_exists_listed year semester oid s year' semester' :
  is_Some (the_term year' semester' s) →
  is_Some (the_term year' semester' (listed year semester oid s)).
Proof.
  intros Hs. destruct (decide ((year', semester') = (year, semester))) as [[= -> ->]|Hne].
  - rewrite the_term_listed. by apply fmap_is_Some.
  - by rewrite the_term_listed_other.
Qed.

(** X15.  A claim counts toward [Amount] once it is approved, and then with
    its amount: after [Submit] the total of the member is what it was, after
    [Approve] of the new identifier it is the old total plus the amount (in
    the arithmetic of [int]), whichever term [Amount] is asked about. *)
Theorem claim_counts_once_approved
    st memberID year semester amount now oid now' oid' year' semester' :
  oid ∉ Log.ID <$> logs st →
  term_exists year' semester' st →
  let before := int_sum (Log.Amount <$> approved_of memberID st) in
  let submitted := final (run (Submit memberID year semester amount) st [] now oid) in
  let approved := final (run (Approve [oid]) submitted [] now' oid') in
  outcome (run (Amount year' semester' memberID) st [] now' oid') = Ok before
  ∧ outcome (run (Amount year' semester' memberID) submitted [] now' oid') = Ok before
  ∧ outcome (run (Amount year' semester' memberID) approved [] now' oid')
    = Ok (int_add before amount).
Proof.
  intros Hfresh [f Hf]%term_exists_the_term before submitted approved.
  assert (submitted = listed year semester oid (filed memberID amount now oid st)) as Hs.
  { unfold submitted. exec. by rewrite decide_False. }
  assert (approved = approved_store [oid] now' submitted) as Ha by done.
  assert (is_Some (the_term year' semester' submitted)) as [f1 Hf1].
  { rewrite Hs. apply term_exists_listed. by exists f. }
  assert (is_Some (the_term year' semester' approved)) as [f2 Hf2] by by exists f1.
  rewrite (Amount_quiet _ _ _ _ _ _ f Hf), (Amount_quiet _ _ _ _ _ _ f1 Hf1),
    (Amount_quiet _ _ _ _ _ _ f2 Hf2).
  unfold outcome. simpl. split_and!; [done| |]; f_equal.
  - rewrite Hs. unfold approved_of. simpl.
    rewrite filter_app, filter_cons_False, filter_nil, app_nil_r; [done|].
    simpl. by intros [_ ?].
  - rewrite Ha, Hs. unfold approved_of, approved_store. simpl.
    rewrite fmap_app, approved_at_fresh by done. simpl.
    unfold approved_at at 1. rewrite decide_True by (simpl; left).
    rewrite filter_app, filter_cons_True, filter_nil by done.
    rewrite fmap_app. exact (int_sum_snoc _ _).
Qed.

Lemma claim_counts_once_approved_witness :
  outcome (run (Amount 2024 2 "M1")
             (final (run (Approve [10%N])
                       (final (run (Submit "M1" 2024 1 30000) ledger_two_terms [] 400 10%N))
                       [] 500 0%N))
             [] 500 0%N)
  = Ok 80000.
Proof.
  destruct (claim_counts_once_approved ledger_two_terms "M1" 2024 1 30000 400 10%N
              500 0%N 2024 2) as (_ & _ & H); [by_decide|by_decide|].
  exact H.
Defined.

Lemma the_term_listed_any year semester oid s year' semester' :
  the_term year' semester' (listed year semester oid s) = the_term year' semester' s
  ∨ the_term year' semester' (listed year semester oid s)
    = push_log oid <$> the_term year' semester' s.
Proof.
  destruct (decide ((year', semester') = (year, semester))) as [[= -> ->]|Hne].
  - right. apply the_term_listed.
  - left. by apply the_term_listed_other.
Qed.

Lemma Dones_no_term st year semester now oid :
  the_term year semester st = None →
  outcome (run (Dones year semester) st [] now oid) = Err ErrNoDocuments.
Proof. unfold the_term. intros Hno. exec. by rewrite Hno. Qed.

Lemma Yets_no_term st year semester now oid :
  the_term year semester st = None →
  outcome (run (Yets year semester) st [] now oid) = Err ErrNoDocuments.
Proof. unfold the_term. intros Hno. exec. by rewrite Hno. Qed.

(** A new log that is not approved leaves the approved roster logs of
    every term as they were. *)
Lemma roster_unmoved f f' (ls : list Log.t) x :
  Log.Type_ x ≠ "approved" → Log.ID x ∉ Log.ID <$> ls →
  Fee.Logs f' = Fee.Logs f ∨ Fee.Logs f' = Fee.Logs f ++ [Log.ID x] →
  filter (on_roster f') (ls ++ [x]) = filter (on_roster f) ls.
Proof.
  intros Hty Hfresh Hlogs.
  rewrite filter_app, filter_cons_False, filter_nil, app_nil_r by (by intros [_ ?]).
  apply filter_ext_in. intros l Hl. unfold on_roster.
  destruct Hlogs as [-> | ->]; [done|]. rewrite elem_of_app, list_elem_of_singleton.
  split; [|tauto]. intros [[?|Heq] ?]; [done|].
  destruct Hfresh. rewrite <- Heq. by apply list_elem_of_fmap_2.
Qed.

Lemma reports_unmoved st st' year semester now oid now' oid' x :
  fees st' = fees st ∨ (∃ y t, fees st' = fees (listed y t (Log.ID x) st)) →
  logs st' = logs st ++ [x] → members st' = members st →
  Log.Type_ x ≠ "approved" → Log.ID x ∉ Log.ID <$> logs st →
  outcome (run (Dones year semester) st' [] now' oid')
  = outcome (run (Dones year semester) st [] now oid)
  ∧ outcome (run (Yets year semester) st' [] now' oid')
    = outcome (run (Yets year semester) st [] now oid).
Proof.
  intros Hfees Hlogs Hmembers Hty Hfresh.
  assert (the_term year semester st' = the_term year semester st
          ∨ the_term year semester st' = push_log (Log.ID x) <$> the_term year semester st)
    as Hterm.
  { unfold the_term at 1 3. destruct Hfees as [->|(y & t & ->)]; [by left|].
    apply the_term_listed_any. }
  destruct (the_term year semester st) as [f|] eqn:Hf.
  - assert (∃ f', the_term year semester st' = Some f'
                  ∧ Fee.Amount f' = Fee.Amount f
                  ∧ (Fee.Logs f' = Fee.Logs f ∨ Fee.Logs f' = Fee.Logs f ++ [Log.ID x]))
      as (f' & Hf' & Ham & Hroster).
    { destruct Hterm as [->| ->]; eexists; split_and!; try done; [by left|by right]. }
    rewrite (Dones_quiet _ _ _ _ _ _ Hf'), (Dones_quiet _ _ _ _ _ _ Hf),
      (Yets_quiet _ _ _ _ _ _ Hf'), (Yets_quiet _ _ _ _ _ _ Hf).
    unfold outcome. simpl. rewrite Hmembers.
    assert (∀ m, roster_logs f' st' m = roster_logs f st m) as Hsame.
    { intros m. unfold roster_logs. rewrite Hlogs. by rewrite (roster_unmoved f f'). }
    split; f_equal; apply list_filter_iff; intros mb;
      unfold paid, unpaid, credit; by rewrite Hsame, Ham.
  - assert (the_term year semester st' = None) as Hf' by by destruct Hterm as [->| ->].
    by rewrite !Dones_no_term, !Yets_no_term.
Qed.

(** X16.  A claim just submitted and a direct deposit do not move [Dones]
    and [Yets]: for every key the two reports answer after the [Submit] and
    after the [Deposit] what they answered before. *)
Theorem pending_logs_do_not_move_the_reports
    st memberID year semester amount now oid year' semester' now' oid' :
  oid ∉ Log.ID <$> logs st →
  let submitted := final (run (Submit memberID year semester amount) st [] now oid) in
  let deposited := final (run (Deposit year semester amount) st [] now oid) in
  (outcome (run (Dones year' semester') submitted [] now' oid')
   = outcome (run (Dones year' semester') st [] now' oid')
   ∧ outcome (run (Yets year' semester') submitted [] now' oid')
     = outcome (run (Yets year' semester') st [] now' oid'))
  ∧ (outcome (run (Dones year' semester') deposited [] now' oid')
     = outcome (run (Dones year' semester') st [] now' oid')
     ∧ outcome (run (Yets year' semester') deposited [] now' oid')
       = outcome (run (Yets year' semester') st [] now' oid')).
Proof.
  intros Hfresh submitted deposited.
  assert (submitted = listed year semester oid (filed memberID amount now oid st)) as Hs.
  { unfold submitted. exec. by rewrite decide_False. }
  assert (deposited = banked amount now oid (listed year semester oid st)) as Hd.
  { unfold deposited. exec. by rewrite decide_False. }
  split.
  - apply (reports_unmoved st submitted _ _ _ _ _ _
             (Log.mk oid memberID "unapproved" amount now)); rewrite ?Hs; try done.
    right. by exists year, semester.
  - apply (reports_unmoved st deposited _ _ _ _ _ _
             (Log.mk oid "" "direct" amount now)); rewrite ?Hd; try done.
    right. by exists year, semester.
Qed.

Lemma pending_logs_do_not_move_the_reports_witness :
  outcome (run (Dones 2024 1)
             (final (run (Submit "M2" 2024 1 40000) ledger_paid [] 400 9%N)) [] 500 0%N)
  = Ok [Member.mk "M1" "Kim"].
Proof.
  destruct (pending_logs_do_not_move_the_reports ledger_paid "M2" 2024 1 40000 400 9%N
              2024 1 500 0%N) as ([H _] & _); [by_decide|].
  rewrite H. vm_compute. reflexivity.
Defined.

(** An approved log under a fresh identifier, newly on the roster, joins
    the approved roster logs of its member and of nobody else. *)
Lemma roster_joined f (s s' : Store) x m :
  logs s' = logs s ++ [x] → Log.Type_ x = "approved" →
  Log.ID x ∉ Log.ID <$> logs s →
  roster_logs (push_log (Log.ID x) f) s' m
  = roster_logs f s m ++ (if decide (Log.MemberID x = m) then [x] else []).
Proof.
  intros Hlogs Hty Hfresh. unfold roster_logs. rewrite Hlogs, !filter_app. f_equal.
  - f_equal. apply filter_ext_in. intros l Hl. unfold on_roster. simpl.
    rewrite elem_of_app, list_elem_of_singleton.
    split; [|tauto]. intros [[?|Heq] ?]; [done|].
    destruct Hfresh. rewrite <- Heq. by apply list_elem_of_fmap_2.
  - rewrite (filter_cons_True (on_roster _)).
    + rewrite filter_nil, filter_cons, filter_nil. done.
    + split; [|done]. simpl. apply elem_of_app. right. left.
Qed.

(** X17.  An approved claim moves its member and nobody else: after [Submit]
    and [Approve] of the new identifier, [Dones] of the term returns the
    member of the claim if and only if the old total of the member plus the
    amount of the claim reaches the fee, [Yets] returns the member if and
    only if it does not, and every other member is in [Dones] and in [Yets]
    as before. *)
Theorem approved_claim_moves_its_member
    st memberID year semester amount now oid now' oid' f :
  oid ∉ Log.ID <$> logs st →
  the_term year semester st = Some f →
  let submitted := final (run (Submit memberID year semester amount) st [] now oid) in
  let approved := final (run (Approve [oid]) submitted [] now' oid') in
  let total := int_add (credit f st memberID) amount in
  outcome (run (Dones year semester) approved [] now' oid')
  = Ok (filter (λ mb, (Member.ID mb = memberID ∧ Fee.Amount f ≤ total)
                      ∨ (Member.ID mb ≠ memberID ∧ paid f st mb)) (members st))
  ∧ outcome (run (Yets year semester) approved [] now' oid')
    = Ok (filter (λ mb, (Member.ID mb = memberID ∧ total < Fee.Amount f)
                        ∨ (Member.ID mb ≠ memberID ∧ unpaid f st mb)) (members st)).
Proof.
  intros Hfresh Hf submitted approved total.
  assert (submitted = listed year semester oid (filed memberID amount now oid st)) as Hs.
  { unfold submitted. exec. by rewrite decide_False. }
  assert (approved = approved_store [oid] now' submitted) as Ha by done.
  clearbody submitted approved.
  assert (logs approved = logs st ++ [Log.mk oid memberID "approved" amount now']) as Hlogs.
  { rewrite Ha, Hs. unfold approved_store. simpl.
    rewrite fmap_app, approved_at_fresh by done. simpl.
    unfold approved_at. by rewrite decide_True by (simpl; left). }
  assert (the_term year semester approved = Some (push_log oid f)) as Hfa.
  { rewrite Ha, Hs.
    pose proof (the_term_listed year semester oid (filed memberID amount now oid st)) as Hl.
    unfold the_term in *. simpl in *. by rewrite Hl, Hf. }
  assert (members approved = members st) as Hm by by rewrite Ha, Hs.
  assert (∀ m, roster_logs (push_log oid f) approved m
               = roster_logs f st m ++ (if decide (memberID = m)
                                        then [Log.mk oid memberID "approved" amount now']
                                        else [])) as Hroster.
  { intros m. by apply (roster_joined f st approved
                          (Log.mk oid memberID "approved" amount now')). }
  rewrite (Dones_quiet _ _ _ _ _ _ Hfa), (Yets_quiet _ _ _ _ _ _ Hfa).
  unfold outcome. simpl. rewrite Hm.
  split; f_equal; apply list_filter_iff; intros mb; unfold paid, unpaid, credit;
    rewrite Hroster; simpl.
  all: destruct (decide (Member.ID mb = memberID)) as [Heq|Hne].
  all: rewrite ?Heq, ?decide_True by done; rewrite ?decide_False by done.
  all: rewrite ?app_nil_r; try tauto.
  all: rewrite fmap_app; simpl; rewrite int_sum_snoc; fold (credit f st memberID).
  all: fold total.
  all: split; [intros [_ ?]; left; by split|].
  all: intros [[_ ?]|[? _]]; [|done]; split; [|done].
  all: by intros [_ ?]%app_eq_nil.
Qed.

Lemma approved_claim_moves_its_member_witness :
  outcome (run (Dones 2024 1)
             (final (run (Approve [9%N])
                       (final (run (Submit "M2" 2024 1 40000) ledger_paid [] 400 9%N))
                       [] 500 0%N))
             [] 500 0%N)
  = Ok [Member.mk "M1" "Kim"; Member.mk "M2" "Lee"].
Proof.
  destruct (approved_claim_moves_its_member ledger_paid "M2" 2024 1 40000 400 9%N
              500 0%N term_2024_1) as [H _]; [by_decide|reflexivity|].
  etrans; [exact H|]. vm_compute. reflexivity.
Defined.

(** X18.  A direct deposit shows in [All] of its term at once; a claim does
    not show after [Submit] and shows, as approved and with the stamp of the
    approval, after [Approve] of its identifier. *)
Theorem new_log_shows_in_All
    srt st memberID year semester amount now oid now' oid' f :
  sort_contract srt →
  oid ∉ Log.ID <$> logs st →
  the_term year semester st = Some f →
  let submitted := final (run (Submit memberID year semester amount) st [] now oid) in
  let approved := final (run (Approve [oid]) submitted [] now' oid') in
  let deposited := final (run (Deposit year semester amount) st [] now oid) in
  (∃ ls, outcome (run (All srt year semester) deposited [] now' oid') = Ok ls
         ∧ Log.mk oid "" "direct" amount now ∈ ls)
  ∧ (∃ ls, outcome (run (All srt year semester) submitted [] now' oid') = Ok ls
           ∧ ∀ l, l ∈ ls → Log.ID l ≠ oid)
  ∧ (∃ ls, outcome (run (All srt year semester) approved [] now' oid') = Ok ls
           ∧ Log.mk oid memberID "approved" amount now' ∈ ls).
Proof.
  intros Hsrt Hfresh Hf submitted approved deposited.
  assert (submitted = listed year semester oid (filed memberID amount now oid st)) as Hs.
  { unfold submitted. exec. by rewrite decide_False. }
  assert (approved = approved_store [oid] now' submitted) as Ha by done.
  assert (deposited = banked amount now oid (listed year semester oid st)) as Hd.
  { unfold deposited. exec. by rewrite decide_False. }
  clearbody submitted approved deposited.
  assert (the_term year semester deposited = Some (push_log oid f)) as Hfd.
  { rewrite Hd. change (the_term year semester (banked amount now oid ?s))
      with (the_term year semester s). by rewrite the_term_listed, Hf. }
  assert (the_term year semester submitted = Some (push_log oid f)) as Hfs.
  { rewrite Hs. pose proof (the_term_listed year semester oid
                              (filed memberID amount now oid st)) as Hl.
    rewrite Hl. change (the_term year semester (filed memberID amount now oid st))
      with (the_term year semester st). by rewrite Hf. }
  assert (the_term year semester approved = Some (push_log oid f)) as Hfa
    by (by rewrite Ha).
  rewrite (All_quiet srt _ _ _ _ _ _ Hfd), (All_quiet srt _ _ _ _ _ _ Hfs),
    (All_quiet srt _ _ _ _ _ _ Hfa).
  unfold outcome. simpl. split_and!; eexists; (split; [reflexivity|]).
  - rewrite (proj1 (Hsrt _ _)), Hd. simpl. rewrite filter_app, elem_of_app. right.
    rewrite filter_cons_True; [left|]. split; simpl; [|by right].
    apply elem_of_app. right. left.
  - intros l. rewrite (proj1 (Hsrt _ _)), Hs. simpl.
    rewrite filter_app, elem_of_app, !list_elem_of_filter.
    intros [[_ Hl]|[[_ Hty] ->%list_elem_of_singleton]].
    + intros Heq. apply Hfresh. rewrite <- Heq. by apply list_elem_of_fmap_2.
    + simpl in Hty. by destruct Hty.
  - rewrite (proj1 (Hsrt _ _)), Ha, Hs. unfold approved_store. simpl.
    rewrite fmap_app, filter_app, elem_of_app. right. simpl.
    unfold approved_at at 1. rewrite decide_True by (simpl; left).
    rewrite filter_cons_True; [left|]. split; simpl; [|by left].
    apply elem_of_app. right. left.
Qed.

Lemma new_log_shows_in_All_witness :
  ∃ ls, outcome (run (All merge_sort_Slice 2024 1)
                   (final (run (Deposit 2024 1 50000) ledger_step2 [] 120 7%N)) [] 130 0%N)
        = Ok ls
        ∧ Log.mk 7%N "" "direct" 50000 120 ∈ ls.
Proof.
  destruct (new_log_shows_in_All merge_sort_Slice ledger_step2 "M1" 2024 1 50000 120 7%N
              130 0%N (Fee.mk 2024 1 50000 []) merge_sort_Slice_contract)
    as (H & _); [by_decide|reflexivity|].
  exact H.
Defined.

(** X19.  After [Create] on a store without the term, the lookup by the key
    answers with the new term (amount as given, empty roster) and every term
    on file before is still found; a second [Create] with the key answers
    [ErrDuplicatedFee] and changes nothing, whatever the amount; [Dones],
    [Yets] and [All] of the new term are empty. *)
Theorem Create_then_look_up srt st year semester amount now oid now' oid' :
  sort_contract srt →
  ¬ term_exists year semester st →
  let created := final (run (Create year semester amount) st [] now oid) in
  the_term year semester created = Some (Fee.mk year semester amount [])
  ∧ (∀ year' semester' f, the_term year' semester' st = Some f →
       the_term year' semester' created = Some f)
  ∧ (∀ amount', outcome (run (Create year semester amount') created [] now' oid')
                = Err ErrDuplicatedFee
                ∧ final (run (Create year semester amount') created [] now' oid') = created)
  ∧ outcome (run (Dones year semester) created [] now' oid') = Ok []
  ∧ outcome (run (Yets year semester) created [] now' oid') = Ok []
  ∧ outcome (run (All srt year semester) created [] now' oid') = Ok [].
Proof.
  intros Hsrt Hno%no_term_the_term created.
  assert (created = with_fees st (fees st ++ [New year semester amount])) as Hc.
  { unfold created, the_term in *. exec. by rewrite Hno. }
  clearbody created.
  assert (the_term year semester created = Some (New year semester amount)) as Hf.
  { rewrite Hc. unfold the_term in *. simpl. by apply find_first_app_new. }
  split_and!.
  - done.
  - intros y' t' f Hf'. rewrite Hc. unfold the_term in *. simpl.
    by apply find_first_app_old.
  - intros amount'. unfold the_term in Hf. split; exec; by rewrite Hf.
  - rewrite (Dones_quiet _ _ _ _ _ _ Hf). unfold outcome. simpl. f_equal.
    apply filter_none. intros mb _ [Hne _]. apply Hne. unfold roster_logs.
    rewrite (filter_none (on_roster _)); [done|]. intros l _ [Hl _]. simpl in Hl.
    by apply elem_of_nil in Hl.
  - rewrite (Yets_quiet _ _ _ _ _ _ Hf). unfold outcome. simpl. f_equal.
    apply filter_none. intros mb _ [Hne _]. apply Hne. unfold roster_logs.
    rewrite (filter_none (on_roster _)); [done|]. intros l _ [Hl _]. simpl in Hl.
    by apply elem_of_nil in Hl.
  - rewrite (All_quiet srt _ _ _ _ _ _ Hf). unfold outcome. simpl. f_equal.
    apply Permutation_nil_r. rewrite (proj1 (Hsrt _ _)).
    rewrite (filter_none (shown _)); [done|]. intros l _ [Hl _]. simpl in Hl.
    by apply elem_of_nil in Hl.
Qed.

Lemma Create_then_look_up_witness :
  the_term 2024 2 (final (run (Create 2024 2 99) ledger_2024 [] 0 0%N))
  = Some (Fee.mk 2024 2 99 [])
  ∧ outcome (run (Dones 2024 2) (final (run (Create 2024 2 99) ledger_2024 [] 0 0%N))
               [] 1 0%N) = Ok [].
Proof.
  destruct (Create_then_look_up merge_sort_Slice ledger_2024 2024 2 99 0 0%N 1 0%N
              merge_sort_Slice_contract) as (H1 & _ & _ & H2 & _); [by_decide|].
  by split.
Defined.

(** ** Identifiers and keys that name nothing *)

Lemma pulled_missing year semester id s :
  the_term year semester s = None → pulled year semester id s = s.
Proof.
  unfold the_term, pulled. intros Hnone%find_first_None.
  rewrite update_first_none by done. by destruct s.
Qed.

Lemma rejected_fees_missing year semester ids s :
  the_term year semester s = None → fees (rejected year semester ids s) = fees s.
Proof.
  revert s. induction ids as [|id ids IH]; intros s Hno; simpl; [done|].
  rewrite pulled_missing by done. by rewrite IH.
Qed.

Lemma rejected_keeps_other_logs year semester ids s l :
  l ∈ logs s → Log.ID l ∉ ids → l ∈ logs (rejected year semester ids s).
Proof.
  revert s. induction ids as [|id ids IH]; intros s Hl Hid; simpl; [done|].
  apply not_elem_of_cons in Hid as [Hne Hid]. apply IH; [|done]. simpl.
  by apply elem_of_delete_first_other.
Qed.

Lemma rejected_logs_elem year semester ids s l :
  l ∈ logs (rejected year semester ids s) → l ∈ logs s.
Proof.
  revert s. induction ids as [|id ids IH]; intros s; simpl; [done|].
  intros Hl%IH. simpl in Hl. by eapply elem_of_delete_first.
Qed.

(** X20.  [Reject] under a key no term has still returns nil and deletes the
    logs: the terms stay as they are and the logs left are those whose
    identifier is not among [ids]. *)
Theorem Reject_without_term_still_deletes st year semester ids now oid :
  ¬ term_exists year semester st →
  unique_log_ids st →
  outcome (run (Reject year semester ids) st [] now oid) = Ok tt
  ∧ fees (final (run (Reject year semester ids) st [] now oid)) = fees st
  ∧ ∀ l, l ∈ logs (final (run (Reject year semester ids) st [] now oid))
         ↔ l ∈ logs st ∧ Log.ID l ∉ ids.
Proof.
  intros Hno%no_term_the_term Huniq.
  pose proof (Reject_quiet st year semester ids now oid) as Hok.
  rewrite (Reject_Ok _ _ _ _ _ _ _ Hok). split_and!; [done| |].
  - by apply rejected_fees_missing.
  - intros l. split.
    + intros Hl. split; [by eapply rejected_logs_elem|].
      intros Hid. eapply rejected_logs_gone; [done..|]. by apply list_elem_of_fmap_2.
    + intros [Hl Hid]. by apply rejected_keeps_other_logs.
Qed.

Lemma Reject_without_term_still_deletes_witness :
  fees (final (run (Reject 2023 1 [7%N]) ledger_2024 [] 0 0%N)) = fees ledger_2024
  ∧ (Log.mk 7%N "M1" "unapproved" 30000 100
       ∉ logs (final (run (Reject 2023 1 [7%N]) ledger_2024 [] 0 0%N))).
Proof.
  destruct (Reject_without_term_still_deletes ledger_2024 2023 1 [7%N] 0 0%N)
    as (_ & Hfees & Hlogs); [by_decide|by_decide|].
  split; [exact Hfees|]. intros [_ Hid]%Hlogs. apply Hid. by_decide.
Defined.

Lemma delete_first_absent id (ls : list Log.t) :
  id ∉ Log.ID <$> ls → delete_first (has_id id) ls = ls.
Proof.
  intros Hid. apply delete_first_none. apply Forall_forall. by apply fresh_has_no_log.
Qed.

Lemma pulled_absent year semester id s :
  (∀ f, the_term year semester s = Some f → id ∉ Fee.Logs f) →
  pulled year semester id s = s.
Proof.
  intros Hid. unfold pulled. rewrite update_first_fixed; [by destruct s|].
  intros [y t a ls] Hf. specialize (Hid _ Hf). unfold pull_log. simpl in *. f_equal.
  apply filter_all. intros x Hx ->. done.
Qed.

(** X21.  Identifiers that name nothing change nothing.  [Approve] of
    identifiers no stored log has, and [Reject] of identifiers that neither
    a stored log nor the roster of the selected term has, leave the store as
    it is under every fault plan, and return nil when the driver does not
    fail. *)
Theorem unknown_ids_change_nothing st year semester ids fs now oid :
  ((∀ l, l ∈ logs st → Log.ID l ∉ ids) →
     final (run (Approve ids) st fs now oid) = st
     ∧ outcome (run (Approve ids) st [] now oid) = Ok tt)
  ∧ ((∀ id, id ∈ ids → (id ∉ Log.ID <$> logs st)
                       ∧ ∀ f, the_term year semester st = Some f → id ∉ Fee.Logs f) →
     final (run (Reject year semester ids) st fs now oid) = st
     ∧ outcome (run (Reject year semester ids) st [] now oid) = Ok tt).
Proof.
  split.
  - intros Hids. split; [|done].
    destruct (Approve_final st ids fs now oid) as [->| ->]; [done|].
    assert (approved_at ids now <$> logs st = logs st) as ->; [|by destruct st].
    induction (logs st) as [|l ls IH]; [done|].
    rewrite fmap_cons, IH by (intros x Hx; apply Hids; by right). f_equal.
    unfold approved_at. rewrite decide_False; [done|]. apply Hids. left.
  - intros Hids. split; [|apply Reject_quiet].
    apply (keeps_run (λ s, s = st)); [|done]. apply Reject_keeps.
    + intros id s Hid ->. apply pulled_absent. by apply Hids.
    + intros id s Hid ->. unfold deleted. rewrite delete_first_absent; [by destruct st|].
      by apply Hids.
Qed.

Lemma unknown_ids_change_nothing_witness :
  final (run (Approve [8%N]) ledger_2024 [] 160 0%N) = ledger_2024
  ∧ final (run (Reject 2024 1 [8%N]) ledger_2024 [] 160 0%N) = ledger_2024.
Proof.
  destruct (unknown_ids_change_nothing ledger_2024 2024 1 [8%N] [] 160 0%N) as [Ha Hr].
  split.
  - apply Ha. intros l Hl. vm_compute in Hl. apply list_elem_of_singleton in Hl as ->. by_decide.
  - apply Hr. intros id ->%list_elem_of_singleton. split; [by_decide|].
    intros f Hf. vm_compute in Hf. injection Hf as <-. by_decide.
Defined.

(** ** Repeated approval *)

Lemma approved_at_twice ids now1 now2 l :
  approved_at ids now2 (approved_at ids now1 l) = approved_at ids now2 l.
Proof.
  unfold approved_at. destruct (decide (Log.ID l ∈ ids)) as [Hin|Hin]; simpl.
  - by rewrite decide_True.
  - by rewrite decide_False.
Qed.

Lemma approved_at_app ids1 ids2 now l :
  approved_at ids2 now (approved_at ids1 now l) = approved_at (ids1 ++ ids2) now l.
Proof.
  unfold approved_at.
  destruct (decide (Log.ID l ∈ ids1)) as [H1|H1], (decide (Log.ID l ∈ ids2)) as [H2|H2];
    simpl; rewrite ?decide_True, ?decide_False by done;
    (destruct (decide (Log.ID l ∈ ids1 ++ ids2)) as [H|H]; [|try done]); try done.
  all: try (destruct H; apply elem_of_app; tauto).
  apply elem_of_app in H. tauto.
Qed.

(** X22.  Approving the same identifiers again replaces the stamp and
    nothing else: the store is the one a single [Approve] at the later time
    gives.  Two batches approved within the same second give the store one
    [Approve] of both batches gives. *)
Theorem Approve_again_and_in_batches st ids ids' now now' oid oid' oid'' :
  final (run (Approve ids) (final (run (Approve ids) st [] now oid)) [] now' oid')
  = final (run (Approve ids) st [] now' oid'')
  ∧ final (run (Approve ids') (final (run (Approve ids) st [] now oid)) [] now oid')
    = final (run (Approve (ids ++ ids')) st [] now oid'').
Proof.
  rewrite !Approve_quiet. unfold final. simpl. unfold with_logs. simpl. split; f_equal.
  - rewrite <- list_fmap_compose. apply list_fmap_ext. intros i l _. simpl.
    apply approved_at_twice.
  - rewrite <- list_fmap_compose. apply list_fmap_ext. intros i l _. simpl.
    apply approved_at_app.
Qed.

(** ** The reports as functions of the ledger *)

(** X23.  [Dones] and [Yets] split the members that have an approved log on
    the roster: together the two results are, up to order, exactly those
    members, and each of them is in one of the two. *)
Theorem Dones_and_Yets_split_the_payers st year semester now oid f :
  the_term year semester st = Some f →
  ∃ dones yets,
    outcome (run (Dones year semester) st [] now oid) = Ok dones
    ∧ outcome (run (Yets year semester) st [] now oid) = Ok yets
    ∧ dones ++ yets ≡ₚ filter (on_file f st) (members st)
    ∧ (∀ mb, mb ∈ members st → on_file f st mb → mb ∈ dones ∨ mb ∈ yets)
    ∧ (length dones + length yets ≤ length (members st))%nat.
Proof.
  intros Hf. exists (filter (paid f st) (members st)), (filter (unpaid f st) (members st)).
  rewrite (Dones_quiet _ _ _ _ _ f Hf), (Yets_quiet _ _ _ _ _ f Hf).
  assert (filter (paid f st) (members st) ++ filter (unpaid f st) (members st)
          ≡ₚ filter (on_file f st) (members st)) as Hperm.
  { rewrite <- (filter_app_complement (paid f st) (filter (on_file f st) (members st))).
    rewrite !list_filter_filter. f_equiv; apply reflexive_eq, list_filter_iff; intros mb.
    - unfold paid, on_file. tauto.
    - unfold paid, unpaid, on_file. split.
      + intros [Hon Hlt]. split; [|done]. intros [_ Hle]. lia.
      + intros [Hnp Hon]. split; [done|].
        destruct (decide (Fee.Amount f ≤ credit f st (Member.ID mb))); [|lia].
        by destruct Hnp. }
  split_and!; [done..| |].
  - intros mb Hmb Hon.
    assert (mb ∈ filter (on_file f st) (members st)) as Hin
      by by apply list_elem_of_filter.
    rewrite <- Hperm in Hin. by apply elem_of_app in Hin.
  - rewrite <- length_app, Hperm. apply length_filter.
Qed.

Lemma Dones_and_Yets_split_the_payers_witness :
  ∃ dones yets,
    outcome (run (Dones 2024 1) ledger_paid [] 0 0%N) = Ok dones
    ∧ outcome (run (Yets 2024 1) ledger_paid [] 0 0%N) = Ok yets
    ∧ dones ++ yets ≡ₚ [Member.mk "M1" "Kim"; Member.mk "M2" "Lee"].
Proof.
  destruct (Dones_and_Yets_split_the_payers ledger_paid 2024 1 0 0%N term_2024_1)
    as (dones & yets & Hd & Hy & Hperm & _); [reflexivity|].
  exists dones, yets. split_and!; [done..|]. rewrite Hperm. reflexivity.
Defined.

Lemma Z_sum_perm l l' : l ≡ₚ l' → Z_sum l = Z_sum l'.
Proof. unfold Z_sum. induction 1; simpl; lia. Qed.

Lemma int_sum_perm l l' : l ≡ₚ l' → int_sum l = int_sum l'.
Proof. intros Hp. by rewrite !int_sum_wrap, (Z_sum_perm l l' Hp). Qed.

Lemma Amount_no_term st year semester memberID now oid :
  the_term year semester st = None →
  outcome (run (Amount year semester memberID) st [] now oid) = Err ErrNoDocuments.
Proof. unfold the_term. intros Hno. exec. by rewrite Hno. Qed.

Lemma All_no_term srt st year semester now oid :
  the_term year semester st = None →
  outcome (run (All srt year semester) st [] now oid) = Err ErrNoDocuments.
Proof. unfold the_term. intros Hno. exec. by rewrite Hno. Qed.

Lemma roster_logs_perm f s s' m :
  logs s' ≡ₚ logs s → roster_logs f s' m ≡ₚ roster_logs f s m.
Proof. intros Hp. unfold roster_logs. by rewrite Hp. Qed.

(** X24.  The reports do not depend on the order in which the collection
    yields the logs: on two stores with the same terms, the same members and
    the same logs in another order, [Amount], [Dones] and [Yets] answer the
    same, wrapped totals included, and [All] answers with the same logs. *)
Theorem reports_ignore_the_order_of_logs srt st st' year semester memberID now oid :
  sort_contract srt →
  fees st' = fees st → members st' = members st → logs st' ≡ₚ logs st →
  outcome (run (Amount year semester memberID) st' [] now oid)
  = outcome (run (Amount year semester memberID) st [] now oid)
  ∧ outcome (run (Dones year semester) st' [] now oid)
    = outcome (run (Dones year semester) st [] now oid)
  ∧ outcome (run (Yets year semester) st' [] now oid)
    = outcome (run (Yets year semester) st [] now oid)
  ∧ match outcome (run (All srt year semester) st' [] now oid),
          outcome (run (All srt year semester) st [] now oid) with
    | Ok ls', Ok ls => ls' ≡ₚ ls
    | Err e', Err e => e' = e
    | _, _ => False
    end.
Proof.
  intros Hsrt Hfees Hmembers Hlogs.
  assert (the_term year semester st' = the_term year semester st) as Hterm
    by (unfold the_term; by rewrite Hfees).
  destruct (the_term year semester st) as [f|] eqn:Hf.
  - rewrite (Amount_quiet _ _ _ _ _ _ _ Hterm), (Amount_quiet _ _ _ _ _ _ _ Hf),
      (Dones_quiet _ _ _ _ _ _ Hterm), (Dones_quiet _ _ _ _ _ _ Hf),
      (Yets_quiet _ _ _ _ _ _ Hterm), (Yets_quiet _ _ _ _ _ _ Hf),
      (All_quiet srt _ _ _ _ _ _ Hterm), (All_quiet srt _ _ _ _ _ _ Hf).
    unfold outcome. simpl. rewrite Hmembers.
    assert (∀ m, credit f st' m = credit f st m) as Hcredit.
    { intros m. unfold credit. apply int_sum_perm. by rewrite (roster_logs_perm f st st'). }
    assert (∀ m, roster_logs f st' m = [] ↔ roster_logs f st m = []) as Hnil.
    { intros m. rewrite <- !Permutation_nil_r. by rewrite (roster_logs_perm f st st'). }
    split_and!.
    + f_equal. apply int_sum_perm. unfold approved_of. by rewrite Hlogs.
    + f_equal. apply list_filter_iff. intros mb. unfold paid.
      by rewrite Hcredit, Hnil.
    + f_equal. apply list_filter_iff. intros mb. unfold unpaid.
      by rewrite Hcredit, Hnil.
    + rewrite !(proj1 (Hsrt _ _)). by rewrite Hlogs.
  - by rewrite !Amount_no_term, !Dones_no_term, !Yets_no_term, !All_no_term.
Qed.

Lemma reports_ignore_the_order_of_logs_witness :
  outcome (run (Amount 2024 1 "M1") ledger_paid_shuffled [] 0 0%N)
  = outcome (run (Amount 2024 1 "M1") ledger_paid [] 0 0%N)
  ∧ outcome (run (Dones 2024 1) ledger_paid_shuffled [] 0 0%N)
    = outcome (run (Dones 2024 1) ledger_paid [] 0 0%N).
Proof.
  destruct (reports_ignore_the_order_of_logs merge_sort_Slice ledger_paid
              ledger_paid_shuffled 2024 1 "M1" 0 0%N merge_sort_Slice_contract)
    as (Ha & Hd & _); [reflexivity|reflexivity|by_decide|].
  by split.
Defined.
